(** * dkeyczar: key material, envelopes and loaders (keydata.go)

    A shallow embedding of [keydata.go]: the six key types, their key
    identifiers, HMAC signing and verification, AES-CBC authenticated
    encryption, RSA decryption and the six version loaders.

    Go values are modelled as follows.
    - [[]byte] is [list byte]; [len] is [length]; a slice expression
      [s[lo:hi]] is [slice s lo hi], which panics out of range as Go does.
    - A function returning [(T, error)] returns a pair whose second
      component is [option error] ([None] is a nil error); a nil slice or
      nil map in the first component is [None].
    - A run-time panic (a slice or an index out of range, a nil pointer
      dereferenced) is an outcome of its own ([Panic]); the calls a
      method makes into the keyed primitives of the standard library are
      recorded, in order, in a trace.
    - The standard library is the one [hmac.NewSHA1] belongs to, that of
      the weekly releases before Go 1.
    - The standard library's primitives (SHA-1, HMAC-SHA1, the AES block
      function, RSA-OAEP, the JSON decoder) and the declarations of the
      package that live in other files ([kzHeaderLength], [makeHeader],
      [pkcs5pad], [pkcs5unpad], the key-type table, [decodeWeb64String])
      are parameters, bundled in two classes.

    Key generation, the packed form of a symmetric key, DSA and RSA
    signatures and RSA encryption follow the executable instance, over
    further parameters of their own. *)

From Stdlib Require Import ZArith NArith Lia Bool List.
From Stdlib Require Import Strings.Ascii Strings.String Strings.Byte.
From stdpp Require Import base option list gmap.

Local Open Scope nat_scope.

(** ** Bytes and fixed-width integers *)

Abbreviation byte := Init.Byte.byte.
Abbreviation bytes := (list Init.Byte.byte).

#[export] Instance byte_eq_dec : EqDecision byte := Byte.byte_eq_dec.

Definition byte_to_Z (b : byte) : Z := Z.of_N (Byte.to_N b).

(** Go's conversion [uint8(z)] / [byte(z)]: the low eight bits. *)
Definition uint8 (z : Z) : byte :=
  match Byte.of_N (Z.to_N (z mod 256)) with
  | Some b => b
  | None => Byte.x00
  end.

(** Go's conversion [uint32(z)]. *)
Definition uint32 (z : Z) : Z := z mod 2 ^ 32.

Definition bits8 : Type :=
  (bool * (bool * (bool * (bool * (bool * (bool * (bool * bool)))))))%type.

Definition map2_bits8 (f : bool -> bool -> bool) (x y : bits8) : bits8 :=
  let '(x0, (x1, (x2, (x3, (x4, (x5, (x6, x7))))))) := x in
  let '(y0, (y1, (y2, (y3, (y4, (y5, (y6, y7))))))) := y in
  (f x0 y0, (f x1 y1, (f x2 y2, (f x3 y3, (f x4 y4, (f x5 y5, (f x6 y6, f x7 y7))))))).

(** [a ^ b] and [a | b] on bytes. *)
Definition byte_xor (a b : byte) : byte :=
  Byte.of_bits (map2_bits8 xorb (Byte.to_bits a) (Byte.to_bits b)).

Definition byte_or (a b : byte) : byte :=
  Byte.of_bits (map2_bits8 orb (Byte.to_bits a) (Byte.to_bits b)).

(** [make([]byte, n)]: n zero bytes. *)
Definition make_bytes (n : nat) : bytes := replicate n Byte.x00.

(** [binary.BigEndian.PutUint32]: the four bytes [binary.Write] hands to
    the writer for a [uint32]. *)
Definition BigEndian_PutUint32 (v : Z) : bytes :=
  [uint8 (Z.shiftr v 24); uint8 (Z.shiftr v 16); uint8 (Z.shiftr v 8); uint8 v].

(** The unsigned integer a big-endian byte string denotes
    ([big.Int.SetBytes]). *)
Definition big_SetBytes (b : bytes) : Z :=
  fold_left (fun acc x => (acc * 256 + byte_to_Z x)%Z) b 0%Z.

(** [big.Int.Bytes]: the big-endian bytes of the absolute value, without
    leading zeros (none at all for zero). A number below [2 ^ n] has at
    most [n] bytes, which bounds the loop. *)
Fixpoint big_Bytes_loop (n : nat) (z : Z) (acc : bytes) : bytes :=
  match n with
  | O => acc
  | S n' =>
      if (z =? 0)%Z then acc
      else big_Bytes_loop n' (z / 256)%Z (uint8 z :: acc)
  end.

Definition big_Bytes (z : Z) : bytes :=
  big_Bytes_loop (S (Z.to_nat (Z.log2 (Z.abs z)))) (Z.abs z) [].

(** [big.Int.Int64]: the low 64 bits of a non-negative number, read as
    a signed integer. *)
Definition big_Int64 (z : Z) : Z :=
  let low := (z mod 2 ^ 64)%Z in
  if (low <? 2 ^ 63)%Z then low else (low - 2 ^ 64)%Z.

(** The conversion [int(z)]: [int] has 32 bits in the releases before
    Go 1.1, on every platform. *)
Definition int (z : Z) : Z :=
  let low := (z mod 2 ^ 32)%Z in
  if (low <? 2 ^ 31)%Z then low else (low - 2 ^ 32)%Z.

(** ** Execution model: panics and the trace of primitive calls *)

Inductive error : Type :=
| ErrShortCiphertext
| ErrInvalidSignature
| ErrInvalidKeySize
| ErrBase64Decoding
| aes_KeySizeError (n : nat)
| OtherError (msg : string).

Inductive event : Type :=
| ev_hmac_Sum (key msg : bytes)
| ev_aes_NewCipher (key : bytes)
| ev_cbc_Encrypt (key iv src : bytes)
| ev_cbc_Decrypt (key iv src : bytes)
| ev_rsa_DecryptOAEP (ciphertext : bytes).

Inductive go (A : Type) : Type :=
| Panic
| Done (a : A).

Arguments Panic {A}.
Arguments Done {A} a.

(** A computation: the calls made so far and how it ended. *)
Definition M (A : Type) : Type := (list event * go A)%type.

#[export] Instance M_ret : MRet M := fun A a => ([], Done a).

#[export] Instance M_bind : MBind M := fun A B k m =>
  match m with
  | (t, Panic) => (t, Panic)
  | (t, Done a) => let '(t', r) := k a in (t ++ t', r)
  end.

Definition panic {A} : M A := ([], Panic).

(** A call into a keyed primitive: recorded, then its result. *)
Definition call {A} (e : event) (a : A) : M A := ([e], Done a).

Definition lift {A} (r : go A) : M A := ([], r).

Definition trace {A} (m : M A) : list event := fst m.

Definition outcome {A} (m : M A) : go A := snd m.

(** [s[lo:hi]] with [hi <= len(s)]: panics unless [lo <= hi <= len(s)]. *)
Definition slice (s : bytes) (lo hi : nat) : M bytes :=
  if (lo <=? hi) && (hi <=? length s) then mret (take (hi - lo) (drop lo s))
  else panic.

(** [s[lo:]]. *)
Definition slice_from (s : bytes) (lo : nat) : M bytes :=
  slice s lo (length s).

(** ** Data model *)

(** *** Key material (the structs of keydata.go) *)

Record hmacKey : Type := { hmacKey_key : bytes }.

Record aesKey : Type := { aesKey_key : bytes; aesKey_hmacKey : hmacKey }.

(** [dsa.PublicKey] (with its embedded [dsa.Parameters]) and
    [dsa.PrivateKey]; a [*big.Int] is its integer value. *)
Record dsa_PublicKey : Type := { dsa_P : Z; dsa_Q : Z; dsa_G : Z; dsa_Y : Z }.

Record dsa_PrivateKey : Type := { dsa_PublicKey_of : dsa_PublicKey; dsa_X : Z }.

Record dsaPublicKey : Type := { dsaPublicKey_key : dsa_PublicKey }.

Record dsaKey : Type :=
  { dsaKey_key : dsa_PrivateKey; dsaKey_publicKey : dsaPublicKey }.

(** [rsa.PublicKey], [rsa.PrecomputedValues] and [rsa.PrivateKey]. *)
Record rsa_PublicKey : Type := { rsa_N : Z; rsa_E : Z }.

Record rsa_PrecomputedValues : Type := { rsa_Dp : Z; rsa_Dq : Z; rsa_Qinv : Z }.

Record rsa_PrivateKey : Type :=
  { rsa_PublicKey_of : rsa_PublicKey;
    rsa_D : Z;
    rsa_Primes : list Z;
    rsa_Precomputed : rsa_PrecomputedValues }.

Record rsaPublicKey : Type := { rsaPublicKey_key : rsa_PublicKey }.

Record rsaKey : Type :=
  { rsaKey_key : rsa_PrivateKey; rsaKey_publicKey : rsaPublicKey }.

(** A value of interface type [keyIDer]: one of the six key types. *)
Inductive keyIDer : Type :=
| key_aes (k : aesKey)
| key_hmac (k : hmacKey)
| key_dsaPublic (k : dsaPublicKey)
| key_dsa (k : dsaKey)
| key_rsaPublic (k : rsaPublicKey)
| key_rsa (k : rsaKey).

(** *** Serialized records (the JSON structs of keydata.go) *)

(** [cipherMode] is declared in another file and never read here. *)
Definition cipherMode : Type := Z.

Record hmacKeyJSON : Type := { HmacKeyString : string; hmac_Size : Z }.

Record aesKeyJSON : Type :=
  { AesKeyString : string;
    aes_Size : Z;
    aes_HmacKey : hmacKeyJSON;
    aes_Mode : cipherMode }.

Record dsaPublicKeyJSON : Type :=
  { dsaj_Q : string; dsaj_P : string; dsaj_Y : string; dsaj_G : string;
    dsaPublic_Size : Z }.

Record dsaKeyJSON : Type :=
  { dsa_PublicKeyJSON : dsaPublicKeyJSON; dsa_Size : Z; dsaj_X : string }.

Record rsaPublicKeyJSON : Type :=
  { Modulus : string; PublicExponent : string; rsaPublic_Size : Z }.

Record rsaKeyJSON : Type :=
  { CrtCoefficient : string;
    PrimeExponentP : string;
    PrimeExponentQ : string;
    PrimeP : string;
    PrimeQ : string;
    PrivateExponent : string;
    rsa_PublicKeyJSON : rsaPublicKeyJSON;
    rsa_Size : Z }.

(** The zero values [new(T)] allocates. *)
Definition new_hmacKeyJSON : hmacKeyJSON :=
  {| HmacKeyString := ""; hmac_Size := 0%Z |}.

Definition new_aesKeyJSON : aesKeyJSON :=
  {| AesKeyString := ""; aes_Size := 0%Z; aes_HmacKey := new_hmacKeyJSON;
     aes_Mode := 0%Z |}.

Definition new_dsaPublicKeyJSON : dsaPublicKeyJSON :=
  {| dsaj_Q := ""; dsaj_P := ""; dsaj_Y := ""; dsaj_G := "";
     dsaPublic_Size := 0%Z |}.

Definition new_dsaKeyJSON : dsaKeyJSON :=
  {| dsa_PublicKeyJSON := new_dsaPublicKeyJSON; dsa_Size := 0%Z; dsaj_X := "" |}.

Definition new_rsaPublicKeyJSON : rsaPublicKeyJSON :=
  {| Modulus := ""; PublicExponent := ""; rsaPublic_Size := 0%Z |}.

Definition new_rsaKeyJSON : rsaKeyJSON :=
  {| CrtCoefficient := ""; PrimeExponentP := ""; PrimeExponentQ := "";
     PrimeP := ""; PrimeQ := ""; PrivateExponent := "";
     rsa_PublicKeyJSON := new_rsaPublicKeyJSON; rsa_Size := 0%Z |}.

(** *** The loaders' inputs *)

(** [KeyReader]: [GetKey(version int) (string, error)]. *)
Definition KeyReader : Type := Z -> string * option error.

(** [keyMeta] and its versions; only [Versions] and [VersionNumber] are
    read here. *)
Record keyVersion : Type := { VersionNumber : Z }.

Record keyMeta : Type := { Versions : list keyVersion }.

(** The key types of the type-descriptor table. *)
Inductive keyType : Type :=
| ktAES
| ktHMAC_SHA1
| ktDSA_PRIV
| ktDSA_PUB
| ktRSA_PRIV
| ktRSA_PUB.

(** ** Parameters *)

(** [p := new(T); json.Unmarshal(data, &p)]: the decoder is handed a
    pointer to the pointer [p]. The result is the struct [p] points to
    afterwards, or [None] when the decoder has set [p] itself to nil, as
    it does for the JSON value [null]. The error result is dropped at
    every call in keydata.go. *)
Class Unmarshal (T : Type) : Type := json_Unmarshal : string -> T -> option T.

(** The standard library's primitives. *)
Class Library : Type :=
  { sha1_digest : bytes -> bytes;
    hmac_sha1 : bytes -> bytes -> bytes;
    aes_encryptBlock : bytes -> bytes -> bytes;
    aes_decryptBlock : bytes -> bytes -> bytes;
    rsa_DecryptOAEP : rsa_PrivateKey -> bytes -> option bytes * option error;
    Unmarshal_hmacKeyJSON :: Unmarshal hmacKeyJSON;
    Unmarshal_aesKeyJSON :: Unmarshal aesKeyJSON;
    Unmarshal_dsaPublicKeyJSON :: Unmarshal dsaPublicKeyJSON;
    Unmarshal_dsaKeyJSON :: Unmarshal dsaKeyJSON;
    Unmarshal_rsaPublicKeyJSON :: Unmarshal rsaPublicKeyJSON;
    Unmarshal_rsaKeyJSON :: Unmarshal rsaKeyJSON }.

(** The package's declarations outside keydata.go. *)
Class Package : Type :=
  { kzHeaderLength : nat;
    makeHeader : keyIDer -> bytes;
    pkcs5pad : bytes -> nat -> bytes;
    pkcs5unpad : bytes -> go bytes;
    isAcceptableSize : keyType -> Z -> bool;
    decodeWeb64String : string -> bytes * option error }.

(** ** The standard library, over the primitives *)

(** A [hash.Hash]: the digest it computes and the bytes written so far. *)
Record hash_Hash : Type :=
  { hash_digest : bytes -> bytes; hash_written : bytes }.

Definition hash_Write (h : hash_Hash) (p : bytes) : hash_Hash :=
  {| hash_digest := hash_digest h; hash_written := hash_written h ++ p |}.

(** [h.Sum(b)] appends the digest of what was written to [b]. *)
Definition hash_Sum (h : hash_Hash) (b : bytes) : bytes :=
  b ++ hash_digest h (hash_written h).

(** [binary.Write(h, binary.BigEndian, v)] for [v] a [uint32]. *)
Definition binary_Write_uint32 (h : hash_Hash) (v : Z) : hash_Hash :=
  hash_Write h (BigEndian_PutUint32 v).

Definition sha1_New `{Library} : hash_Hash :=
  {| hash_digest := sha1_digest; hash_written := [] |}.

Definition hmac_NewSHA1 `{Library} (key : bytes) : hash_Hash :=
  {| hash_digest := hmac_sha1 key; hash_written := [] |}.

(** [subtle.ConstantTimeByteEq] and [subtle.ConstantTimeCompare]. The
    latter has no test of the lengths: its loop
    [for i := 0; i < len(x); i++ { v |= x[i] ^ y[i] }] runs over the
    indices of [x], so a shorter [y] is indexed out of range and the
    bytes of a longer [y] past [len(x)] are never read. *)
Definition ConstantTimeByteEq (x y : byte) : Z :=
  Z.shiftr (uint32 (byte_to_Z (byte_xor x y) - 1)) 31.

Fixpoint ConstantTimeCompare_loop (x y : bytes) (v : byte) : go byte :=
  match x, y with
  | [], _ => Done v
  | _ :: _, [] => Panic
  | xi :: x, yi :: y => ConstantTimeCompare_loop x y (byte_or v (byte_xor xi yi))
  end.

Definition ConstantTimeCompare (x y : bytes) : go Z :=
  match ConstantTimeCompare_loop x y Byte.x00 with
  | Panic => Panic
  | Done v => Done (ConstantTimeByteEq v Byte.x00)
  end.

(** [io.ReadFull(r, buf)] with the error dropped: the reader's bytes
    overwrite the front of the buffer, as many as it supplies. *)
Definition io_ReadFull (reader : bytes) (buf : bytes) : bytes :=
  take (length buf) (reader ++ drop (length reader) buf).

Definition aes_BlockSize : nat := 16.

(** A [cipher.Block] made by [aes.NewCipher]. *)
Record cipher_Block : Type := { block_key : bytes }.

(** [aes.NewCipher]: a key of 16, 24 or 32 bytes, else [KeySizeError]. *)
Definition aes_key_size_ok (key : bytes) : bool :=
  (length key =? 16) || (length key =? 24) || (length key =? 32).

Definition aes_NewCipher (key : bytes) : M (option cipher_Block * option error) :=
  call (ev_aes_NewCipher key)
    (if aes_key_size_ok key
     then (Some {| block_key := key |}, None)
     else (None, Some (aes_KeySizeError (length key)))).

(** A [cipher.BlockMode] in CBC mode. *)
Record cipher_BlockMode : Type :=
  { mode_decrypt : bool; mode_block : cipher_Block; mode_iv : bytes }.

Definition cipher_NewCBCEncrypter (b : cipher_Block) (iv : bytes) : M cipher_BlockMode :=
  if length iv =? aes_BlockSize
  then mret {| mode_decrypt := false; mode_block := b; mode_iv := iv |}
  else panic.

Definition cipher_NewCBCDecrypter (b : cipher_Block) (iv : bytes) : M cipher_BlockMode :=
  if length iv =? aes_BlockSize
  then mret {| mode_decrypt := true; mode_block := b; mode_iv := iv |}
  else panic.

Definition xor_bytes (a b : bytes) : bytes := zip_with byte_xor a b.

(** CBC over [n] blocks of [src]. *)
Fixpoint cbc_encrypt `{Library} (n : nat) (key iv src : bytes) : bytes :=
  match n with
  | O => []
  | S n' =>
      let c := aes_encryptBlock key (xor_bytes (take aes_BlockSize src) iv) in
      c ++ cbc_encrypt n' key c (drop aes_BlockSize src)
  end.

Fixpoint cbc_decrypt `{Library} (n : nat) (key iv src : bytes) : bytes :=
  match n with
  | O => []
  | S n' =>
      let c := take aes_BlockSize src in
      xor_bytes (aes_decryptBlock key c) iv
        ++ cbc_decrypt n' key c (drop aes_BlockSize src)
  end.

(** [mode.CryptBlocks(dst, src)]: the new contents of [dst]. It panics
    when [src] is not a whole number of blocks or [dst] is shorter than
    [src]. *)
Definition CryptBlocks `{Library} (mode : cipher_BlockMode) (dst src : bytes) : M bytes :=
  let key := block_key (mode_block mode) in
  let iv := mode_iv mode in
  if negb (length src mod aes_BlockSize =? 0) then panic
  else if length dst <? length src then panic
  else
    let n := length src / aes_BlockSize in
    if mode_decrypt mode
    then call (ev_cbc_Decrypt key iv src)
              (cbc_decrypt n key iv src ++ drop (length src) dst)
    else call (ev_cbc_Encrypt key iv src)
              (cbc_encrypt n key iv src ++ drop (length src) dst).

(** ** keydata.go *)

(** The interface [keyIDer]. *)
Class KeyIDer (T : Type) : Type := KeyID : T -> bytes.

Definition hmacSigLength : nat := 20.

(** [err != nil]. *)
Definition failed (err : option error) : bool :=
  match err with
  | Some _ => true
  | None => false
  end.

(** A [[]byte] result used as a slice: nil has no bytes. *)
Definition bytes_of (s : option bytes) : bytes := default [] s.

(** [for _, kv := range km.Versions { ...; keys[kv.VersionNumber] = key }]
    where the body panics, returns [(nil, e)] from the loader ([inl e])
    or reaches the assignment with a key ([inr key]); after the loop the
    loader returns [(keys, nil)]. *)
Fixpoint range_Versions (body : keyVersion -> go (error + keyIDer))
    (versions : list keyVersion) (keys : gmap Z keyIDer)
    : go (option (gmap Z keyIDer) * option error) :=
  match versions with
  | [] => Done (Some keys, None)
  | kv :: rest =>
      match body kv with
      | Panic => Panic
      | Done (inl e) => Done (None, Some e)
      | Done (inr key) => range_Versions body rest (<[VersionNumber kv := key]> keys)
      end
  end.

Section Keydata.

Context `{Lib : Library} `{Pkg : Package}.

(** *** MAC key *)

Definition hmacKey_KeyID (hm : hmacKey) : bytes :=
  let h := sha1_New in
  let h := hash_Write h (hmacKey_key hm) in
  let id := hash_Sum h [] in
  take 4 id.

Definition hmacKey_Sign (hm : hmacKey) (msg : bytes) : M (option bytes * option error) :=
  let sha1hmac := hmac_NewSHA1 (hmacKey_key hm) in
  let sha1hmac := hash_Write sha1hmac msg in
  sig ← call (ev_hmac_Sum (hmacKey_key hm) (hash_written sha1hmac))
             (hash_Sum sha1hmac []);
  mret (Some sig, None).

Definition hmacKey_Verify (hm : hmacKey) (msg signature : bytes) : M (bool * option error) :=
  let sha1hmac := hmac_NewSHA1 (hmacKey_key hm) in
  let sha1hmac := hash_Write sha1hmac msg in
  sig ← call (ev_hmac_Sum (hmacKey_key hm) (hash_written sha1hmac))
             (hash_Sum sha1hmac []);
  c ← lift (ConstantTimeCompare sig signature);
  mret ((c =? 1)%Z, None).

Definition newHmacKeys_body (r : KeyReader) (kv : keyVersion) : go (error + keyIDer) :=
  let '(s, err) := r (VersionNumber kv) in
  match err with
  | Some e => Done (inl e)
  | None =>
      match json_Unmarshal s new_hmacKeyJSON with
      | None => Panic
      | Some hmacjson =>
          Done
            (if negb (isAcceptableSize ktHMAC_SHA1 (hmac_Size hmacjson))
             then inl ErrInvalidKeySize
             else
               let '(key, err) := decodeWeb64String (HmacKeyString hmacjson) in
               if failed err then inl ErrBase64Decoding
               else inr (key_hmac {| hmacKey_key := key |}))
      end
  end.

Definition newHmacKeys (r : KeyReader) (km : keyMeta)
    : go (option (gmap Z keyIDer) * option error) :=
  range_Versions (newHmacKeys_body r) (Versions km) ∅.

(** *** Symmetric key *)

Definition aesKey_KeyID (ak : aesKey) : bytes :=
  let h := sha1_New in
  let h := binary_Write_uint32 h (uint32 (Z.of_nat (length (aesKey_key ak)))) in
  let h := hash_Write h (aesKey_key ak) in
  let h := hash_Write h (hmacKey_key (aesKey_hmacKey ak)) in
  let id := hash_Sum h [] in
  take 4 id.

Definition newAesKeys_body (r : KeyReader) (kv : keyVersion) : go (error + keyIDer) :=
  let '(s, err) := r (VersionNumber kv) in
  if failed err then Done (inl ErrBase64Decoding)
  else
    match json_Unmarshal s new_aesKeyJSON with
    | None => Panic
    | Some aesjson =>
        Done
          (if negb (isAcceptableSize ktAES (aes_Size aesjson)) then inl ErrInvalidKeySize
           else
             let '(key, err) := decodeWeb64String (AesKeyString aesjson) in
             if failed err then inl ErrBase64Decoding
             else if negb (isAcceptableSize ktHMAC_SHA1 (hmac_Size (aes_HmacKey aesjson)))
             then inl ErrInvalidKeySize
             else
               let '(hkey, err) := decodeWeb64String (HmacKeyString (aes_HmacKey aesjson)) in
               if failed err then inl ErrBase64Decoding
               else inr (key_aes {| aesKey_key := key;
                                    aesKey_hmacKey := {| hmacKey_key := hkey |} |}))
    end.

Definition newAesKeys (r : KeyReader) (km : keyMeta)
    : go (option (gmap Z keyIDer) * option error) :=
  range_Versions (newAesKeys_body r) (Versions km) ∅.

(** [rand_Reader] is what [rand.Reader] supplies to this call. *)
Definition aesKey_Encrypt (ak : aesKey) (rand_Reader : bytes) (data : bytes)
    : M (option bytes * option error) :=
  let data := pkcs5pad data aes_BlockSize in
  let iv_bytes := make_bytes aes_BlockSize in
  let iv_bytes := io_ReadFull rand_Reader iv_bytes in
  '(aesCipher, err) ← aes_NewCipher (aesKey_key ak);
  match aesCipher, err with
  | _, Some e => mret (None, Some e)
  | None, None => panic
  | Some aesCipher, None =>
      crypter ← cipher_NewCBCEncrypter aesCipher iv_bytes;
      let cipherBytes := make_bytes (length data) in
      cipherBytes ← CryptBlocks crypter cipherBytes data;
      let h := makeHeader (key_aes ak) in
      let msg := [] in
      let msg := msg ++ h in
      let msg := msg ++ iv_bytes in
      let msg := msg ++ cipherBytes in
      '(sig, err) ← hmacKey_Sign (aesKey_hmacKey ak) msg;
      match err with
      | Some e => mret (None, Some e)
      | None =>
          let msg := msg ++ bytes_of sig in
          mret (Some msg, None)
      end
  end.

Definition aesKey_Decrypt (ak : aesKey) (data : bytes)
    : M (option bytes * option error) :=
  if length data <? kzHeaderLength + aes_BlockSize + hmacSigLength
  then mret (None, Some ErrShortCiphertext)
  else
    msg ← slice data 0 (length data - hmacSigLength);
    sig ← slice_from data (length data - hmacSigLength);
    '(ok, err) ← hmacKey_Verify (aesKey_hmacKey ak) msg sig;
    if negb ok || failed err
    then mret (None, Some (default ErrInvalidSignature err))
    else
      iv_bytes ← slice data kzHeaderLength (kzHeaderLength + aes_BlockSize);
      '(aesCipher, err) ← aes_NewCipher (aesKey_key ak);
      match aesCipher, err with
      | _, Some e => mret (None, Some e)
      | None, None => panic
      | Some aesCipher, None =>
          crypter ← cipher_NewCBCDecrypter aesCipher iv_bytes;
          let plainBytes :=
            make_bytes (length data - kzHeaderLength - hmacSigLength - aes_BlockSize) in
          src ← slice data (kzHeaderLength + aes_BlockSize)
                      (length data - hmacSigLength);
          plainBytes ← CryptBlocks crypter plainBytes src;
          plainBytes ← lift (pkcs5unpad plainBytes);
          mret (Some plainBytes, None)
      end.

(** *** DSA keys *)

Definition newDsaPublicKeys_body (r : KeyReader) (kv : keyVersion) : go (error + keyIDer) :=
  let '(s, err) := r (VersionNumber kv) in
  match err with
  | Some e => Done (inl e)
  | None =>
      match json_Unmarshal s new_dsaPublicKeyJSON with
      | None => Panic
      | Some dsajson =>
          Done
            (if negb (isAcceptableSize ktDSA_PUB (dsaPublic_Size dsajson))
             then inl ErrInvalidKeySize
             else
               let '(b, err) := decodeWeb64String (dsaj_Y dsajson) in
               if failed err then inl ErrBase64Decoding else
               let Y := big_SetBytes b in
               let '(b, err) := decodeWeb64String (dsaj_G dsajson) in
               if failed err then inl ErrBase64Decoding else
               let G := big_SetBytes b in
               let '(b, err) := decodeWeb64String (dsaj_P dsajson) in
               if failed err then inl ErrBase64Decoding else
               let P := big_SetBytes b in
               let '(b, err) := decodeWeb64String (dsaj_Q dsajson) in
               if failed err then inl ErrBase64Decoding else
               let Q := big_SetBytes b in
               inr (key_dsaPublic
                      {| dsaPublicKey_key :=
                           {| dsa_P := P; dsa_Q := Q; dsa_G := G; dsa_Y := Y |} |}))
      end
  end.

Definition newDsaPublicKeys (r : KeyReader) (km : keyMeta)
    : go (option (gmap Z keyIDer) * option error) :=
  range_Versions (newDsaPublicKeys_body r) (Versions km) ∅.

Definition newDsaKeys_body (r : KeyReader) (kv : keyVersion) : go (error + keyIDer) :=
  let '(s, err) := r (VersionNumber kv) in
  match err with
  | Some e => Done (inl e)
  | None =>
      match json_Unmarshal s new_dsaKeyJSON with
      | None => Panic
      | Some dsajson =>
          Done
            (if negb (isAcceptableSize ktDSA_PRIV (dsa_Size dsajson))
                || negb (isAcceptableSize ktDSA_PUB (dsaPublic_Size (dsa_PublicKeyJSON dsajson)))
             then inl ErrInvalidKeySize
             else
               let '(b, err) := decodeWeb64String (dsaj_X dsajson) in
               if failed err then inl ErrBase64Decoding else
               let X := big_SetBytes b in
               let '(b, err) := decodeWeb64String (dsaj_Y (dsa_PublicKeyJSON dsajson)) in
               if failed err then inl ErrBase64Decoding else
               let Y := big_SetBytes b in
               let '(b, err) := decodeWeb64String (dsaj_G (dsa_PublicKeyJSON dsajson)) in
               if failed err then inl ErrBase64Decoding else
               let G := big_SetBytes b in
               let '(b, err) := decodeWeb64String (dsaj_P (dsa_PublicKeyJSON dsajson)) in
               if failed err then inl ErrBase64Decoding else
               let P := big_SetBytes b in
               let '(b, err) := decodeWeb64String (dsaj_Q (dsa_PublicKeyJSON dsajson)) in
               if failed err then inl ErrBase64Decoding else
               let Q := big_SetBytes b in
               let pub := {| dsa_P := P; dsa_Q := Q; dsa_G := G; dsa_Y := Y |} in
               inr (key_dsa
                      {| dsaKey_key := {| dsa_PublicKey_of := pub; dsa_X := X |};
                         dsaKey_publicKey := {| dsaPublicKey_key := pub |} |}))
      end
  end.

Definition newDsaKeys (r : KeyReader) (km : keyMeta)
    : go (option (gmap Z keyIDer) * option error) :=
  range_Versions (newDsaKeys_body r) (Versions km) ∅.

Definition dsaPublicKey_KeyID (dk : dsaPublicKey) : bytes :=
  let h := sha1_New in
  let h :=
    fold_left
      (fun h n =>
         let b := big_Bytes n in
         let h := binary_Write_uint32 h (uint32 (Z.of_nat (length b))) in
         hash_Write h b)
      [dsa_P (dsaPublicKey_key dk); dsa_Q (dsaPublicKey_key dk);
       dsa_G (dsaPublicKey_key dk); dsa_Y (dsaPublicKey_key dk)]
      h in
  let id := hash_Sum h [] in
  take 4 id.

Definition dsaKey_KeyID (dk : dsaKey) : bytes :=
  dsaPublicKey_KeyID (dsaKey_publicKey dk).

(** *** RSA keys *)

Definition rsaPublicKey_KeyID (rk : rsaPublicKey) : bytes :=
  let h := sha1_New in
  let b := big_Bytes (rsa_N (rsaPublicKey_key rk)) in
  let h := binary_Write_uint32 h (uint32 (Z.of_nat (length b))) in
  let h := hash_Write h b in
  let e := rsa_E (rsaPublicKey_key rk) in
  let b := big_Bytes e in
  let h := binary_Write_uint32 h (uint32 (Z.of_nat (length b))) in
  let h := hash_Write h b in
  let id := hash_Sum h [] in
  take 4 id.

Definition rsaKey_KeyID (rk : rsaKey) : bytes :=
  rsaPublicKey_KeyID (rsaKey_publicKey rk).

Definition newRsaPublicKeys_body (r : KeyReader) (kv : keyVersion) : go (error + keyIDer) :=
  let '(s, err) := r (VersionNumber kv) in
  match err with
  | Some e => Done (inl e)
  | None =>
      match json_Unmarshal s new_rsaPublicKeyJSON with
      | None => Panic
      | Some rsajson =>
          Done
            (if negb (isAcceptableSize ktRSA_PUB (rsaPublic_Size rsajson))
             then inl ErrInvalidKeySize
             else
               let '(b, err) := decodeWeb64String (Modulus rsajson) in
               if failed err then inl ErrBase64Decoding else
               let N := big_SetBytes b in
               let '(b, err) := decodeWeb64String (PublicExponent rsajson) in
               if failed err then inl ErrBase64Decoding else
               let E := int (big_Int64 (big_SetBytes b)) in
               inr (key_rsaPublic {| rsaPublicKey_key := {| rsa_N := N; rsa_E := E |} |}))
      end
  end.

Definition newRsaPublicKeys (r : KeyReader) (km : keyMeta)
    : go (option (gmap Z keyIDer) * option error) :=
  range_Versions (newRsaPublicKeys_body r) (Versions km) ∅.

Definition newRsaKeys_body (r : KeyReader) (kv : keyVersion) : go (error + keyIDer) :=
  let '(s, err) := r (VersionNumber kv) in
  match err with
  | Some e => Done (inl e)
  | None =>
      match json_Unmarshal s new_rsaKeyJSON with
      | None => Panic
      | Some rsajson =>
          Done
            (if negb (isAcceptableSize ktRSA_PRIV (rsa_Size rsajson))
                || negb (isAcceptableSize ktRSA_PUB (rsaPublic_Size (rsa_PublicKeyJSON rsajson)))
             then inl ErrInvalidKeySize
             else
               let '(b, err) := decodeWeb64String (CrtCoefficient rsajson) in
               if failed err then inl ErrBase64Decoding else
               let Qinv := big_SetBytes b in
               let '(b, err) := decodeWeb64String (PrimeExponentP rsajson) in
               if failed err then inl ErrBase64Decoding else
               let Dp := big_SetBytes b in
               let '(b, err) := decodeWeb64String (PrimeExponentQ rsajson) in
               if failed err then inl ErrBase64Decoding else
               let Dq := big_SetBytes b in
               let '(b, err) := decodeWeb64String (PrimeP rsajson) in
               if failed err then inl ErrBase64Decoding else
               let p := big_SetBytes b in
               let '(b, err) := decodeWeb64String (PrimeQ rsajson) in
               if failed err then inl ErrBase64Decoding else
               let q := big_SetBytes b in
               let '(b, err) := decodeWeb64String (PrivateExponent rsajson) in
               if failed err then inl ErrBase64Decoding else
               let D := big_SetBytes b in
               let '(b, err) := decodeWeb64String (Modulus (rsa_PublicKeyJSON rsajson)) in
               if failed err then inl ErrBase64Decoding else
               let N := big_SetBytes b in
               let '(b, err) := decodeWeb64String (PublicExponent (rsa_PublicKeyJSON rsajson)) in
               if failed err then inl ErrBase64Decoding else
               let E := int (big_Int64 (big_SetBytes b)) in
               let pub := {| rsa_N := N; rsa_E := E |} in
               inr (key_rsa
                      {| rsaKey_key :=
                           {| rsa_PublicKey_of := pub;
                              rsa_D := D;
                              rsa_Primes := [p; q];
                              rsa_Precomputed :=
                                {| rsa_Dp := Dp; rsa_Dq := Dq; rsa_Qinv := Qinv |} |};
                         rsaKey_publicKey := {| rsaPublicKey_key := pub |} |}))
      end
  end.

Definition newRsaKeys (r : KeyReader) (km : keyMeta)
    : go (option (gmap Z keyIDer) * option error) :=
  range_Versions (newRsaKeys_body r) (Versions km) ∅.

Definition rsaKey_Decrypt (rk : rsaKey) (msg : bytes) : M (option bytes * option error) :=
  ciphertext ← slice_from msg kzHeaderLength;
  '(s, err) ← call (ev_rsa_DecryptOAEP ciphertext)
                   (rsa_DecryptOAEP (rsaKey_key rk) ciphertext);
  match err with
  | Some e => mret (None, Some e)
  | None => mret (s, None)
  end.

(** *** The six implementations of [keyIDer] *)

#[export] Instance KeyIDer_hmacKey : KeyIDer hmacKey := hmacKey_KeyID.
#[export] Instance KeyIDer_aesKey : KeyIDer aesKey := aesKey_KeyID.
#[export] Instance KeyIDer_dsaPublicKey : KeyIDer dsaPublicKey := dsaPublicKey_KeyID.
#[export] Instance KeyIDer_dsaKey : KeyIDer dsaKey := dsaKey_KeyID.
#[export] Instance KeyIDer_rsaPublicKey : KeyIDer rsaPublicKey := rsaPublicKey_KeyID.
#[export] Instance KeyIDer_rsaKey : KeyIDer rsaKey := rsaKey_KeyID.

(** A method call through the interface dispatches on the dynamic type. *)
#[export] Instance KeyIDer_keyIDer : KeyIDer keyIDer := fun k =>
  match k with
  | key_aes k => KeyID k
  | key_hmac k => KeyID k
  | key_dsaPublic k => KeyID k
  | key_dsa k => KeyID k
  | key_rsaPublic k => KeyID k
  | key_rsa k => KeyID k
  end.

End Keydata.

(** ** An executable instance

    Concrete values for the parameters, so that every function above can
    be run. The package's helpers follow the specification; the
    primitives are small stand-ins with the shape of the real ones (a
    20-byte digest, an invertible 16-byte block function). *)

Module Sample.

(** [rot] moves the first byte of a block to its end, [unrot] back. *)
Definition rot (b : bytes) : bytes :=
  match b with
  | [] => []
  | x :: rest => rest ++ [x]
  end.

Definition unrot (b : bytes) : bytes :=
  match last b with
  | None => []
  | Some x => x :: take (length b - 1) b
  end.

(** The first 16 bytes of the key (zeros if it is shorter). *)
Definition round_key (key : bytes) : bytes :=
  take aes_BlockSize (key ++ make_bytes aes_BlockSize).

Definition encryptBlock (key block : bytes) : bytes :=
  rot (xor_bytes block (round_key key)).

Definition decryptBlock (key block : bytes) : bytes :=
  xor_bytes (unrot block) (round_key key).

(** A 20-byte checksum: byte [i] is the sum of [(i + j + 1) * m_j] over
    the message, plus its length. *)
Definition digest (m : bytes) : bytes :=
  map (fun i =>
         uint8 (fold_left Z.add
                  (imap (fun j x => (Z.of_nat (i + j + 1) * byte_to_Z x)%Z) m)
                  (Z.of_nat (length m))))
      (seq 0 20).

Definition keyed_digest (key m : bytes) : bytes :=
  digest (key ++ digest (key ++ m)).

(** Records are written as fields separated by [|], sizes in decimal;
    the record [null] stands for the JSON value of that name. *)
Fixpoint split_fields (s : string) (cur : string) : list string :=
  match s with
  | EmptyString => [cur]
  | String c rest =>
      if Ascii.eqb c "|"%char then cur :: split_fields rest EmptyString
      else split_fields rest (cur ++ String c EmptyString)%string
  end.

Definition fields (s : string) : list string := split_fields s EmptyString.

Definition decimal (s : string) : Z :=
  fold_left
    (fun acc c => (acc * 10 + (Z.of_N (Ascii.N_of_ascii c) - 48))%Z)
    (list_ascii_of_string s) 0%Z.

Definition hmac_of_fields (f : list string) (z : hmacKeyJSON) : hmacKeyJSON :=
  match f with
  | [size; k] => {| HmacKeyString := k; hmac_Size := decimal size |}
  | _ => z
  end.

Definition dsaPublic_of_fields (f : list string) (z : dsaPublicKeyJSON) : dsaPublicKeyJSON :=
  match f with
  | [size; q; p; y; g] =>
      {| dsaj_Q := q; dsaj_P := p; dsaj_Y := y; dsaj_G := g;
         dsaPublic_Size := decimal size |}
  | _ => z
  end.

Definition rsaPublic_of_fields (f : list string) (z : rsaPublicKeyJSON) : rsaPublicKeyJSON :=
  match f with
  | [size; n; e] =>
      {| Modulus := n; PublicExponent := e; rsaPublic_Size := decimal size |}
  | _ => z
  end.

Definition unless_null {T} (s : string) (v : T) : option T :=
  if String.eqb s "null" then None else Some v.

#[export] Instance lib : Library :=
  {| sha1_digest := digest;
     hmac_sha1 := keyed_digest;
     aes_encryptBlock := encryptBlock;
     aes_decryptBlock := decryptBlock;
     rsa_DecryptOAEP := fun _ c =>
       match c with
       | [] => (None, Some (OtherError "decryption error"))
       | _ :: m => (Some m, None)
       end;
     Unmarshal_hmacKeyJSON := fun s z => unless_null s (hmac_of_fields (fields s) z);
     Unmarshal_aesKeyJSON := fun s z =>
       unless_null s
       match fields s with
       | [size; k; hsize; hk] =>
           {| AesKeyString := k; aes_Size := decimal size;
              aes_HmacKey := hmac_of_fields [hsize; hk] (aes_HmacKey z);
              aes_Mode := aes_Mode z |}
       | _ => z
       end;
     Unmarshal_dsaPublicKeyJSON := fun s z =>
       unless_null s (dsaPublic_of_fields (fields s) z);
     Unmarshal_dsaKeyJSON := fun s z =>
       unless_null s
       match fields s with
       | size :: x :: pub =>
           {| dsa_PublicKeyJSON := dsaPublic_of_fields pub (dsa_PublicKeyJSON z);
              dsa_Size := decimal size; dsaj_X := x |}
       | _ => z
       end;
     Unmarshal_rsaPublicKeyJSON := fun s z =>
       unless_null s (rsaPublic_of_fields (fields s) z);
     Unmarshal_rsaKeyJSON := fun s z =>
       unless_null s
       match fields s with
       | size :: crt :: dp :: dq :: p :: q :: d :: pub =>
           {| CrtCoefficient := crt; PrimeExponentP := dp; PrimeExponentQ := dq;
              PrimeP := p; PrimeQ := q; PrivateExponent := d;
              rsa_PublicKeyJSON := rsaPublic_of_fields pub (rsa_PublicKeyJSON z);
              rsa_Size := decimal size |}
       | _ => z
       end |}.

(** Modelled from the spec: [kzHeaderLength] and [makeHeader] (§4.2, §6),
    which are declared outside keydata.go: a fixed-length prefix made of
    a format marker followed by the 4-byte KeyID. The marker is one zero
    byte here. *)
Definition headerLength : nat := 5.

Definition header (key : keyIDer) : bytes :=
  Byte.x00 :: take 4 (KeyID key ++ make_bytes 4).

(** Modelled from the spec: [pkcs5pad] (§4.2), PKCS#5/7 padding to the
    block size: between one and [blocksize] bytes, each holding the
    number of bytes added. *)
Definition pad (data : bytes) (blocksize : nat) : bytes :=
  let n := blocksize - length data mod blocksize in
  data ++ replicate n (uint8 (Z.of_nat n)).

(** Modelled from the spec: [pkcs5unpad] (§4.2, §9): it returns one
    result, a byte slice, and "has no explicit handling for malformed
    padding": the last byte says how many bytes to drop. *)
Definition unpad (data : bytes) : go bytes :=
  match last data with
  | None => Panic
  | Some b =>
      let n := Z.to_nat (byte_to_Z b) in
      if n <=? length data then Done (take (length data - n) data) else Panic
  end.

(** Modelled from the spec: the type-descriptor table (§4.1); the spec
    does not list the sizes, these are Keyczar's. *)
Definition acceptable (kt : keyType) (size : Z) : bool :=
  match kt with
  | ktAES => bool_decide (size ∈ [128; 192; 256]%Z)
  | ktHMAC_SHA1 => bool_decide (size = 256%Z)
  | ktDSA_PRIV | ktDSA_PUB => bool_decide (size = 1024%Z)
  | ktRSA_PRIV | ktRSA_PUB => bool_decide (size ∈ [512; 768; 1024; 2048; 4096]%Z)
  end.

(** Modelled from the spec: [decodeWeb64String] (§4.7, §6), unpadded
    URL-safe base64. *)
Definition web64_value (c : Ascii.ascii) : option Z :=
  let n := Z.of_N (Ascii.N_of_ascii c) in
  if (65 <=? n)%Z && (n <=? 90)%Z then Some (n - 65)%Z
  else if (97 <=? n)%Z && (n <=? 122)%Z then Some (n - 97 + 26)%Z
  else if (48 <=? n)%Z && (n <=? 57)%Z then Some (n - 48 + 52)%Z
  else if (n =? 45)%Z then Some 62%Z
  else if (n =? 95)%Z then Some 63%Z
  else None.

Fixpoint web64_groups (v : list Z) : option bytes :=
  match v with
  | [] => Some []
  | [_] => None
  | [a; b] => Some [uint8 (Z.shiftr (a * 64 + b) 4)]
  | [a; b; c] =>
      let n := ((a * 64 + b) * 64 + c)%Z in
      Some [uint8 (Z.shiftr n 10); uint8 (Z.shiftr n 2)]
  | a :: b :: c :: d :: rest =>
      let n := (((a * 64 + b) * 64 + c) * 64 + d)%Z in
      tail ← web64_groups rest;
      Some ([uint8 (Z.shiftr n 16); uint8 (Z.shiftr n 8); uint8 n] ++ tail)
  end.

Definition decode (s : string) : bytes * option error :=
  match mapM web64_value (list_ascii_of_string s) ≫= web64_groups with
  | Some b => (b, None)
  | None => ([], Some (OtherError "illegal base64 data"))
  end.

(** The package around a given padding-removal function, and around
    [unpad]. *)
Definition package (unpad : bytes -> go bytes) : Package :=
  {| kzHeaderLength := headerLength;
     makeHeader := header;
     pkcs5pad := pad;
     pkcs5unpad := unpad;
     isAcceptableSize := acceptable;
     decodeWeb64String := decode |}.

#[export] Instance pkg : Package := package unpad.

(** Sample inputs. *)
Definition key : aesKey :=
  {| aesKey_key := list_byte_of_string "0123456789abcdef";
     aesKey_hmacKey :=
       {| hmacKey_key := list_byte_of_string "mac key bytes, thirty-two long.." |} |}.

Definition hello : bytes := list_byte_of_string "hello world".

Definition entropy : bytes := list_byte_of_string "sixteen random b".

(** An envelope made with the keys of [key] around one block whose last
    three bytes (1, 2, 3) are not PKCS#5/7 padding. *)
Definition unpadded_block : bytes :=
  list_byte_of_string "thirteen byte" ++ [Byte.x01; Byte.x02; Byte.x03].

Definition unpadded_envelope : bytes :=
  let ct := cbc_encrypt 1 (aesKey_key key) entropy unpadded_block in
  let msg := header (key_aes key) ++ entropy ++ ct in
  msg ++ keyed_digest (hmacKey_key (aesKey_hmacKey key)) msg.

(** A reader with four records of a symmetric key: a good record, one
    that declares 100 bits, one whose key is not base64, and, as version
    5, the record [null]. *)
Definition reader : KeyReader := fun version =>
  if (version =? 1)%Z then
    ("128|MDEyMzQ1Njc4OWFiY2RlZg|256|bWFjIGtleSBieXRlcywgdGhpcnR5LXR3byBsb25nLi4"%string,
     None)
  else if (version =? 2)%Z then
    ("100|MDEyMzQ1Njc4OWFiY2RlZg|256|bWFjIGtleSBieXRlcywgdGhpcnR5LXR3byBsb25nLi4"%string,
     None)
  else if (version =? 3)%Z then
    ("128|not base64!|256|bWFjIGtleSBieXRlcywgdGhpcnR5LXR3byBsb25nLi4"%string, None)
  else if (version =? 5)%Z then ("null"%string, None)
  else (""%string, Some (OtherError "no such version")).

Definition versions (numbers : list Z) : keyMeta :=
  {| Versions := map (fun n => {| VersionNumber := n |}) numbers |}.

Definition rsa_key : rsaKey :=
  let pub := {| rsa_N := 3233; rsa_E := 17 |} in
  {| rsaKey_key :=
       {| rsa_PublicKey_of := pub; rsa_D := 2753; rsa_Primes := [61; 53]%Z;
          rsa_Precomputed := {| rsa_Dp := 53; rsa_Dq := 49; rsa_Qinv := 38 |} |};
     rsaKey_publicKey := {| rsaPublicKey_key := pub |} |}.

End Sample.

(** ** The rest of keydata.go

    Key generation, the packed form of a symmetric key, DSA and RSA
    signatures and RSA encryption. None of these functions has a slice
    expression or an index that can go out of range, so they are plain
    functions returning Go's result pairs; the random source is an
    argument holding the bytes it supplies. *)

(** [dsaSignature]: the pair that is DER-encoded. *)
Record dsaSignature : Type := { sig_R : Z; sig_S : Z }.

(** Further primitives of the standard library: RSA-OAEP encryption,
    PKCS#1 v1.5 signatures (hash SHA-1), DSA, and ASN.1 encoding of a
    [dsaSignature]. [asn1.Unmarshal] returns the bytes left over, the
    value it filled in and its error. *)
Class Asymmetric : Type :=
  { rsa_EncryptOAEP : bytes -> rsa_PublicKey -> bytes -> option bytes * option error;
    rsa_SignPKCS1v15 : bytes -> rsa_PrivateKey -> bytes -> option bytes * option error;
    rsa_VerifyPKCS1v15 : rsa_PublicKey -> bytes -> bytes -> option error;
    dsa_Sign : bytes -> dsa_PrivateKey -> bytes -> Z * Z * option error;
    dsa_Verify : dsa_PublicKey -> bytes -> Z -> Z -> bool;
    asn1_Marshal : dsaSignature -> option bytes * option error;
    asn1_Unmarshal : bytes -> dsaSignature -> bytes * dsaSignature * option error }.

(** Further declarations of the package outside keydata.go: the
    length-prefixed packing of byte slices and the default size of a key
    type. *)
Class Codec : Type :=
  { lenPrefixPack : list bytes -> bytes;
    lenPrefixUnpack : bytes -> go (list bytes);
    defaultSize : keyType -> Z }.


(** The conversion [uint(z)]: [uint] has 32 bits in the releases before
    Go 1.1, on every platform. *)
Definition uint (z : Z) : Z := z mod 2 ^ 32.

(** [var rs dsaSignature]: the zero value (nil integers read as 0). *)
Definition new_dsaSignature : dsaSignature := {| sig_R := 0; sig_S := 0 |}.

Section KeydataRest.

Context `{Lib : Library} `{Pkg : Package} `{Asym : Asymmetric} `{Cod : Codec}.



Definition aesKey_packedKeys (ak : aesKey) : bytes :=
  lenPrefixPack [aesKey_key ak; hmacKey_key (aesKey_hmacKey ak)].

(** [uint(len(k))*8], the bit size checked against the table. *)
Definition bit_size (k : bytes) : Z := uint (uint (Z.of_nat (length k)) * 8).

Definition newAesFromPackedKeys (b : bytes) : M (option aesKey * option error) :=
  keys ← lift (lenPrefixUnpack b);
  match keys with
  | [key0; key1] =>
      if negb (isAcceptableSize ktAES (bit_size key0))
         || negb (isAcceptableSize ktHMAC_SHA1 (bit_size key1))
      then mret (None, Some ErrInvalidKeySize)
      else mret (Some {| aesKey_key := key0;
                         aesKey_hmacKey := {| hmacKey_key := key1 |} |}, None)
  | _ => mret (None, Some ErrInvalidKeySize)
  end.

(** *** DSA signatures *)

Definition dsaKey_Sign (dk : dsaKey) (rand_Reader : bytes) (msg : bytes)
    : option bytes * option error :=
  let h := sha1_New in
  let h := hash_Write h msg in
  let '(r, s, err) := dsa_Sign rand_Reader (dsaKey_key dk) (hash_Sum h []) in
  match err with
  | Some e => (None, Some e)
  | None =>
      let sig := {| sig_R := r; sig_S := s |} in
      let '(b, err) := asn1_Marshal sig in
      match err with
      | Some e => (None, Some e)
      | None => (b, None)
      end
  end.

Definition dsaPublicKey_Verify (dk : dsaPublicKey) (msg signature : bytes)
    : bool * option error :=
  let h := sha1_New in
  let h := hash_Write h msg in
  let '(_, rs, err) := asn1_Unmarshal signature new_dsaSignature in
  match err with
  | Some e => (false, Some e)
  | None =>
      (dsa_Verify (dsaPublicKey_key dk) (hash_Sum h []) (sig_R rs) (sig_S rs), None)
  end.

Definition dsaKey_Verify (dk : dsaKey) (msg signature : bytes) : bool * option error :=
  dsaPublicKey_Verify (dsaKey_publicKey dk) msg signature.

(** *** RSA signatures and encryption *)

Definition rsaKey_Sign (rk : rsaKey) (rand_Reader : bytes) (msg : bytes)
    : option bytes * option error :=
  let h := sha1_New in
  let h := hash_Write h msg in
  let '(s, err) := rsa_SignPKCS1v15 rand_Reader (rsaKey_key rk) (hash_Sum h []) in
  (s, err).

Definition rsaPublicKey_Verify (rk : rsaPublicKey) (msg signature : bytes)
    : bool * option error :=
  let h := sha1_New in
  let h := hash_Write h msg in
  (negb (failed (rsa_VerifyPKCS1v15 (rsaPublicKey_key rk) (hash_Sum h []) signature)),
   None).

Definition rsaKey_Verify (rk : rsaKey) (msg signature : bytes) : bool * option error :=
  rsaPublicKey_Verify (rsaKey_publicKey rk) msg signature.

Definition rsaPublicKey_Encrypt (rk : rsaPublicKey) (rand_Reader : bytes) (msg : bytes)
    : option bytes * option error :=
  let '(s, err) := rsa_EncryptOAEP rand_Reader (rsaPublicKey_key rk) msg in
  match err with
  | Some e => (None, Some e)
  | None =>
      let h := makeHeader (key_rsaPublic rk) ++ bytes_of s in
      (Some h, None)
  end.

Definition rsaKey_Encrypt (rk : rsaKey) (rand_Reader : bytes) (msg : bytes)
    : option bytes * option error :=
  rsaPublicKey_Encrypt (rsaKey_publicKey rk) rand_Reader msg.

End KeydataRest.

(** ** An executable instance of the further parameters *)

Module SampleRest.

(** Stand-ins with the shape of the real primitives: the "ciphertext" is
    the message behind one byte (which [Sample.lib]'s OAEP decryption
    removes), a signature is a digest that the verifier recomputes from
    the public half, and a [dsaSignature] is encoded in two bytes. *)
Definition encryptOAEP (rand_Reader : bytes) (pub : rsa_PublicKey) (msg : bytes)
    : option bytes * option error :=
  if (Z.of_nat (length msg) <=? Z.log2 (rsa_N pub))%Z
  then (Some (uint8 (rsa_E pub) :: msg), None)
  else (None, Some (OtherError "message too long")).

Definition signature_of (pub : rsa_PublicKey) (hashed : bytes) : bytes :=
  Sample.digest (big_Bytes (rsa_N pub) ++ hashed).

Definition dsa_r (pub : dsa_PublicKey) (hash : bytes) : Z :=
  big_SetBytes (take 1 (Sample.digest (big_Bytes (dsa_Y pub) ++ hash))).

Definition is_byte (z : Z) : bool := (0 <=? z)%Z && (z <? 256)%Z.

#[export] Instance asym : Asymmetric :=
  {| rsa_EncryptOAEP := encryptOAEP;
     rsa_SignPKCS1v15 := fun _ priv hashed =>
       (Some (signature_of (rsa_PublicKey_of priv) hashed), None);
     rsa_VerifyPKCS1v15 := fun pub hashed sig =>
       if bool_decide (sig = signature_of pub hashed) then None
       else Some (OtherError "verification error");
     dsa_Sign := fun _ priv hash => (dsa_r (dsa_PublicKey_of priv) hash, 1%Z, None);
     dsa_Verify := fun pub hash r s => (r =? dsa_r pub hash)%Z && (s =? 1)%Z;
     asn1_Marshal := fun sig =>
       if is_byte (sig_R sig) && is_byte (sig_S sig)
       then (Some [uint8 (sig_R sig); uint8 (sig_S sig)], None)
       else (None, Some (OtherError "structure error"));
     asn1_Unmarshal := fun b z =>
       match b with
       | r :: s :: rest => (rest, {| sig_R := byte_to_Z r; sig_S := byte_to_Z s |}, None)
       | _ => (b, z, Some (OtherError "syntax error"))
       end |}.

(** Modelled from the spec: [lenPrefixPack] and [lenPrefixUnpack] (§4.2),
    each buffer preceded by its length as 4 big-endian bytes. Unpacking
    stops at the end of the input and panics on a segment that is cut
    short. *)
Definition pack (segments : list bytes) : bytes :=
  concat (map (fun s => BigEndian_PutUint32 (uint32 (Z.of_nat (length s))) ++ s)
              segments).

Fixpoint unpack_loop (n : nat) (b : bytes) : go (list bytes) :=
  match n with
  | O => Done []
  | S n' =>
      if length b =? 0 then Done []
      else if length b <? 4 then Panic
      else
        let len := Z.to_nat (big_SetBytes (take 4 b)) in
        if length b - 4 <? len then Panic
        else
          match unpack_loop n' (drop (4 + len) b) with
          | Panic => Panic
          | Done rest => Done (take len (drop 4 b) :: rest)
          end
  end.

Definition unpack (b : bytes) : go (list bytes) := unpack_loop (S (length b)) b.

(** Modelled from the spec: the default sizes of the type-descriptor
    table (§4.1); the spec does not list them, these are Keyczar's. *)
Definition default (kt : keyType) : Z :=
  match kt with
  | ktAES => 128
  | ktHMAC_SHA1 => 256
  | ktDSA_PRIV | ktDSA_PUB => 1024
  | ktRSA_PRIV | ktRSA_PUB => 4096
  end.

#[export] Instance codec : Codec :=
  {| lenPrefixPack := pack; lenPrefixUnpack := unpack; defaultSize := default |}.

(** A sample DSA key pair with both halves alike: [Q = 131] divides
    [P - 1 = 262], [G = 4] has order [Q] and [Y = G ^ 7 mod P]. *)
Definition dsa_key : dsaKey :=
  let pub := {| dsa_P := 263; dsa_Q := 131; dsa_G := 4; dsa_Y := 78 |} in
  {| dsaKey_key := {| dsa_PublicKey_of := pub; dsa_X := 7 |};
     dsaKey_publicKey := {| dsaPublicKey_key := pub |} |}.

(** A symmetric key whose AES key has 3 bytes, and an envelope with a
    valid tag under [Sample.key] around 11 bytes of ciphertext. *)
Definition short_key : aesKey :=
  {| aesKey_key := list_byte_of_string "abc";
     aesKey_hmacKey := aesKey_hmacKey Sample.key |}.

Definition ragged_envelope : bytes :=
  let msg := Sample.header (key_aes Sample.key) ++ Sample.entropy ++ Sample.hello in
  msg ++ Sample.keyed_digest (hmacKey_key (aesKey_hmacKey Sample.key)) msg.

(** A reader whose version 1 is the record of [dsa_key]: sizes of 1024
    bits, then x, and q, p, y, g of the public key. *)
Definition dsa_reader : KeyReader := fun version =>
  if (version =? 1)%Z then ("1024|Bw|1024|gw|AQc|Tg|BA"%string, None)
  else (""%string, Some (OtherError "no such version")).

End SampleRest.

(** ** Vocabulary of the properties *)

(** The parts of a symmetric envelope [header ++ IV ++ ciphertext ++ tag]:
    everything before the 20-byte tag, the tag, the IV after the header,
    and the ciphertext between the IV and the tag. *)
Definition envelope_msg (data : bytes) : bytes :=
  take (length data - hmacSigLength) data.

Definition envelope_tag (data : bytes) : bytes :=
  drop (length data - hmacSigLength) data.

Definition envelope_iv `{Package} (data : bytes) : bytes :=
  take aes_BlockSize (drop kzHeaderLength data).

Definition envelope_body `{Package} (data : bytes) : bytes :=
  take (length data - hmacSigLength - (kzHeaderLength + aes_BlockSize))
       (drop (kzHeaderLength + aes_BlockSize) data).

(** The steps of [Decrypt] that follow an accepted tag. *)
Definition aesKey_Decrypt_accepted `{Library} `{Package} (ak : aesKey) (data : bytes)
    : M (option bytes * option error) :=
  iv_bytes ← slice data kzHeaderLength (kzHeaderLength + aes_BlockSize);
  '(aesCipher, err) ← aes_NewCipher (aesKey_key ak);
  match aesCipher, err with
  | _, Some e => mret (None, Some e)
  | None, None => panic
  | Some aesCipher, None =>
      crypter ← cipher_NewCBCDecrypter aesCipher iv_bytes;
      let plainBytes :=
        make_bytes (length data - kzHeaderLength - hmacSigLength - aes_BlockSize) in
      src ← slice data (kzHeaderLength + aes_BlockSize)
                  (length data - hmacSigLength);
      plainBytes ← CryptBlocks crypter plainBytes src;
      plainBytes ← lift (pkcs5unpad plainBytes);
      mret (Some plainBytes, None)
  end.

(** PKCS#5/7 padding, as the specification words it: the last byte is a
    count between 1 and the block size, and that many trailing bytes all
    hold the count. *)
Definition padding_ok (blocksize : nat) (plain : bytes) : bool :=
  match last plain with
  | None => false
  | Some b =>
      let n := Z.to_nat (byte_to_Z b) in
      (1 <=? n) && (n <=? blocksize) && (n <=? length plain)
      && forallb (fun x => bool_decide (x = b)) (drop (length plain - n) plain)
  end.

(** The six loaders as one family. *)
Inductive loader : Type :=
| load_aes
| load_hmac
| load_dsaPublic
| load_dsa
| load_rsaPublic
| load_rsa.

Definition run_loader `{Library} `{Package} (l : loader)
    : KeyReader -> keyMeta -> go (option (gmap Z keyIDer) * option error) :=
  match l with
  | load_aes => newAesKeys
  | load_hmac => newHmacKeys
  | load_dsaPublic => newDsaPublicKeys
  | load_dsa => newDsaKeys
  | load_rsaPublic => newRsaPublicKeys
  | load_rsa => newRsaKeys
  end.

(** The body of each loader's loop. *)
Definition loader_body `{Library} `{Package} (l : loader) (r : KeyReader)
    : keyVersion -> go (error + keyIDer) :=
  match l with
  | load_aes => newAesKeys_body r
  | load_hmac => newHmacKeys_body r
  | load_dsaPublic => newDsaPublicKeys_body r
  | load_dsa => newDsaKeys_body r
  | load_rsaPublic => newRsaPublicKeys_body r
  | load_rsa => newRsaKeys_body r
  end.

(** The record as the decoder leaves it for each loader: the bit sizes
    it declares, each with the key type it is checked against, and its
    key-bearing string fields (§6 of the specification); [None] when the
    decoder leaves a nil pointer, as for the JSON value [null]. *)
Definition decoded_record `{Library} (l : loader) (s : string)
    : option (list (keyType * Z) * list string) :=
  match l with
  | load_aes =>
      j ← json_Unmarshal s new_aesKeyJSON;
      Some ([(ktAES, aes_Size j); (ktHMAC_SHA1, hmac_Size (aes_HmacKey j))],
            [AesKeyString j; HmacKeyString (aes_HmacKey j)])
  | load_hmac =>
      j ← json_Unmarshal s new_hmacKeyJSON;
      Some ([(ktHMAC_SHA1, hmac_Size j)], [HmacKeyString j])
  | load_dsaPublic =>
      j ← json_Unmarshal s new_dsaPublicKeyJSON;
      Some ([(ktDSA_PUB, dsaPublic_Size j)], [dsaj_Q j; dsaj_P j; dsaj_G j; dsaj_Y j])
  | load_dsa =>
      j ← json_Unmarshal s new_dsaKeyJSON;
      let p := dsa_PublicKeyJSON j in
      Some ([(ktDSA_PRIV, dsa_Size j); (ktDSA_PUB, dsaPublic_Size p)],
            [dsaj_X j; dsaj_Q p; dsaj_P p; dsaj_G p; dsaj_Y p])
  | load_rsaPublic =>
      j ← json_Unmarshal s new_rsaPublicKeyJSON;
      Some ([(ktRSA_PUB, rsaPublic_Size j)], [Modulus j; PublicExponent j])
  | load_rsa =>
      j ← json_Unmarshal s new_rsaKeyJSON;
      let p := rsa_PublicKeyJSON j in
      Some ([(ktRSA_PRIV, rsa_Size j); (ktRSA_PUB, rsaPublic_Size p)],
            [CrtCoefficient j; PrimeExponentP j; PrimeExponentQ j; PrimeP j; PrimeQ j;
             PrivateExponent j; Modulus p; PublicExponent p])
  end.

(** A record that leaves the loader with a nil pointer. *)
Definition record_is_null `{Library} (l : loader) (s : string) : bool :=
  match decoded_record l s with
  | None => true
  | Some _ => false
  end.

Definition declared_sizes `{Library} (l : loader) (s : string) : list (keyType * Z) :=
  from_option fst [] (decoded_record l s).

Definition encoded_fields `{Library} (l : loader) (s : string) : list string :=
  from_option snd [] (decoded_record l s).

(** A record fails size validation when one of its declared sizes is not
    acceptable for its key type, and fails decoding when one of its
    string fields is not web-safe base64. *)
Definition size_invalid `{Library} `{Package} (l : loader) (s : string) : bool :=
  existsb (fun p => negb (isAcceptableSize (fst p) (snd p))) (declared_sizes l s).

Definition encoding_invalid `{Library} `{Package} (l : loader) (s : string) : bool :=
  existsb (fun f => failed (snd (decodeWeb64String f))) (encoded_fields l s).

(** A version the reader supplies and whose record is decoded and passes
    both checks. *)
Definition version_valid `{Library} `{Package} (l : loader) (r : KeyReader)
    (kv : keyVersion) : Prop :=
  exists s, r (VersionNumber kv) = (s, None)
            /\ record_is_null l s = false
            /\ size_invalid l s = false /\ encoding_invalid l s = false.

(** A version whose record, if the reader supplies one, is decoded. *)
Definition version_decoded `{Library} (l : loader) (r : KeyReader)
    (kv : keyVersion) : Prop :=
  forall s, r (VersionNumber kv) = (s, None) -> record_is_null l s = false.

(** What each loader builds: the variant of its family, and for a private
    key the same public material in both halves (with the two primes of
    an RSA key). *)
Definition loaded_key_ok (l : loader) (k : keyIDer) : Prop :=
  match l, k with
  | load_aes, key_aes _ => True
  | load_hmac, key_hmac _ => True
  | load_dsaPublic, key_dsaPublic _ => True
  | load_dsa, key_dsa dk =>
      dsa_PublicKey_of (dsaKey_key dk) = dsaPublicKey_key (dsaKey_publicKey dk)
  | load_rsaPublic, key_rsaPublic _ => True
  | load_rsa, key_rsa rk =>
      rsa_PublicKey_of (rsaKey_key rk) = rsaPublicKey_key (rsaKey_publicKey rk)
      /\ length (rsa_Primes (rsaKey_key rk)) = 2
  | _, _ => False
  end.

(** An integer with its length in front, as the KeyID digests take it. *)
Definition length_prefixed (z : Z) : bytes :=
  BigEndian_PutUint32 (uint32 (Z.of_nat (length (big_Bytes z)))) ++ big_Bytes z.

(** The bytes each key type feeds to SHA-1 for its KeyID. *)
Definition KeyID_input (k : keyIDer) : bytes :=
  match k with
  | key_aes ak =>
      BigEndian_PutUint32 (uint32 (Z.of_nat (length (aesKey_key ak))))
        ++ aesKey_key ak ++ hmacKey_key (aesKey_hmacKey ak)
  | key_hmac hm => hmacKey_key hm
  | key_dsaPublic dk =>
      let pub := dsaPublicKey_key dk in
      length_prefixed (dsa_P pub) ++ length_prefixed (dsa_Q pub)
        ++ length_prefixed (dsa_G pub) ++ length_prefixed (dsa_Y pub)
  | key_dsa dk =>
      let pub := dsaPublicKey_key (dsaKey_publicKey dk) in
      length_prefixed (dsa_P pub) ++ length_prefixed (dsa_Q pub)
        ++ length_prefixed (dsa_G pub) ++ length_prefixed (dsa_Y pub)
  | key_rsaPublic rk =>
      let pub := rsaPublicKey_key rk in
      length_prefixed (rsa_N pub) ++ length_prefixed (rsa_E pub)
  | key_rsa rk =>
      let pub := rsaPublicKey_key (rsaKey_publicKey rk) in
      length_prefixed (rsa_N pub) ++ length_prefixed (rsa_E pub)
  end.


(** Primality, by trial division. *)
Definition is_prime (n : Z) : bool :=
  (1 <? n)%Z && forallb (fun d => negb (n mod d =? 0)%Z) (seqZ 2 (n - 2)).

(** A well-formed RSA private key: what [PrivateKey.Validate] checks (the
    modulus is the product of the primes, and [D * E] is 1 modulo each
    prime less one), for two distinct primes, with the CRT values that
    [Precompute] stores. *)
Definition rsa_key_valid (priv : rsa_PrivateKey) : bool :=
  let pub := rsa_PublicKey_of priv in
  let pre := rsa_Precomputed priv in
  match rsa_Primes priv with
  | [p; q] =>
      is_prime p && is_prime q && negb (p =? q)%Z
      && (rsa_N pub =? p * q)%Z
      && (1 <? rsa_E pub)%Z && (0 <? rsa_D priv)%Z
      && ((rsa_D priv * rsa_E pub) mod (p - 1) =? 1)%Z
      && ((rsa_D priv * rsa_E pub) mod (q - 1) =? 1)%Z
      && (rsa_Dp pre =? rsa_D priv mod (p - 1))%Z
      && (rsa_Dq pre =? rsa_D priv mod (q - 1))%Z
      && (0 <? rsa_Qinv pre)%Z && (rsa_Qinv pre <? p)%Z
      && ((rsa_Qinv pre * q) mod p =? 1)%Z
  | _ => false
  end.

(** A well-formed DSA private key (FIPS 186-3): primes [P] and [Q] with
    [Q] dividing [P - 1] and of a whole number of bytes, a generator [G]
    of order [Q] modulo [P], a private [X] below [Q] and the public
    [Y = G ^ X mod P]. *)
Definition dsa_key_valid (priv : dsa_PrivateKey) : bool :=
  let pub := dsa_PublicKey_of priv in
  is_prime (dsa_P pub) && is_prime (dsa_Q pub)
  && ((dsa_P pub - 1) mod dsa_Q pub =? 0)%Z
  && ((Z.log2 (dsa_Q pub) + 1) mod 8 =? 0)%Z
  && (1 <? dsa_G pub)%Z && (dsa_G pub <? dsa_P pub)%Z
  && (dsa_G pub ^ dsa_Q pub mod dsa_P pub =? 1)%Z
  && (0 <? dsa_X priv)%Z && (dsa_X priv <? dsa_Q pub)%Z
  && (dsa_Y pub =? dsa_G pub ^ dsa_X priv mod dsa_P pub)%Z.

(** * Properties *)

(** ** Bytes *)

Lemma map2_bits8_xorb_involutive (x y : bits8) :
  map2_bits8 xorb (map2_bits8 xorb x y) y = x.
Proof.
  destruct x as (x0 & x1 & x2 & x3 & x4 & x5 & x6 & x7).
  destruct y as (y0 & y1 & y2 & y3 & y4 & y5 & y6 & y7).
  cbn. rewrite !xorb_assoc, !xorb_nilpotent, !xorb_false_r. reflexivity.
Qed.

Lemma byte_xor_involutive (a b : byte) : byte_xor (byte_xor a b) b = a.
Proof.
  unfold byte_xor. rewrite Byte.to_bits_of_bits, map2_bits8_xorb_involutive.
  apply Byte.of_bits_to_bits.
Qed.

Lemma byte_xor_diag (a : byte) : byte_xor a a = Byte.x00.
Proof.
  unfold byte_xor. destruct (Byte.to_bits a) as (x0 & x1 & x2 & x3 & x4 & x5 & x6 & x7).
  cbn -[Byte.of_bits]. rewrite !xorb_nilpotent. reflexivity.
Qed.

Lemma byte_xor_zero_l (b : byte) : byte_xor Byte.x00 b = b.
Proof.
  unfold byte_xor. destruct (Byte.to_bits b) as (x0 & x1 & x2 & x3 & x4 & x5 & x6 & x7) eqn:E.
  cbn -[Byte.of_bits]. rewrite <- E. apply Byte.of_bits_to_bits.
Qed.

Lemma byte_xor_eq_zero (a b : byte) : byte_xor a b = Byte.x00 <-> a = b.
Proof.
  split.
  - intros E. rewrite <- (byte_xor_involutive a b), E. apply byte_xor_zero_l.
  - intros ->. apply byte_xor_diag.
Qed.

Lemma to_bits_inj (a b : byte) : Byte.to_bits a = Byte.to_bits b -> a = b.
Proof.
  intros E. rewrite <- (Byte.of_bits_to_bits a), E. apply Byte.of_bits_to_bits.
Qed.

Lemma byte_or_eq_zero (a b : byte) :
  byte_or a b = Byte.x00 <-> a = Byte.x00 /\ b = Byte.x00.
Proof.
  split.
  - intros E. apply (f_equal Byte.to_bits) in E.
    unfold byte_or in E. rewrite Byte.to_bits_of_bits in E.
    destruct (Byte.to_bits a) as (x0 & x1 & x2 & x3 & x4 & x5 & x6 & x7) eqn:Ea.
    destruct (Byte.to_bits b) as (y0 & y1 & y2 & y3 & y4 & y5 & y6 & y7) eqn:Eb.
    cbn in E. injection E as E0 E1 E2 E3 E4 E5 E6 E7.
    apply orb_false_elim in E0, E1, E2, E3, E4, E5, E6, E7.
    destruct E0, E1, E2, E3, E4, E5, E6, E7. subst.
    split; apply to_bits_inj; [rewrite Ea | rewrite Eb]; reflexivity.
  - intros [-> ->]. reflexivity.
Qed.

Lemma byte_to_Z_range (b : byte) : (0 <= byte_to_Z b < 256)%Z.
Proof. unfold byte_to_Z. pose proof (Byte.to_N_bounded b). lia. Qed.

Lemma byte_to_Z_inj (a b : byte) : byte_to_Z a = byte_to_Z b -> a = b.
Proof.
  unfold byte_to_Z. intros E. apply N2Z.inj in E.
  pose proof (Byte.of_to_N a) as Ha. rewrite E, Byte.of_to_N in Ha. congruence.
Qed.

Lemma byte_to_Z_uint8 (z : Z) : byte_to_Z (uint8 z) = (z mod 256)%Z.
Proof.
  unfold uint8, byte_to_Z.
  assert (0 <= z mod 256 < 256)%Z as Hr by (apply Z.mod_pos_bound; lia).
  destruct (Byte.of_N (Z.to_N (z mod 256))) as [b|] eqn:E.
  - apply Byte.to_of_N in E. rewrite E. lia.
  - apply Byte.of_N_None_iff in E. lia.
Qed.

Lemma uint8_byte_to_Z (b : byte) : uint8 (byte_to_Z b) = b.
Proof.
  apply byte_to_Z_inj. rewrite byte_to_Z_uint8.
  apply Z.mod_small, byte_to_Z_range.
Qed.

Lemma byte_xor_zero_r (v : byte) : byte_xor v Byte.x00 = v.
Proof.
  unfold byte_xor.
  destruct (Byte.to_bits v) as (x0 & x1 & x2 & x3 & x4 & x5 & x6 & x7) eqn:E.
  cbn -[Byte.of_bits]. rewrite !xorb_false_r, <- E. apply Byte.of_bits_to_bits.
Qed.

Lemma ConstantTimeByteEq_zero (v : byte) :
  ConstantTimeByteEq v Byte.x00 = if decide (v = Byte.x00) then 1%Z else 0%Z.
Proof.
  unfold ConstantTimeByteEq, uint32. rewrite byte_xor_zero_r.
  pose proof (byte_to_Z_range v) as Hr.
  rewrite Z.shiftr_div_pow2 by lia.
  destruct (decide (v = Byte.x00)) as [-> | Hne].
  - reflexivity.
  - assert (byte_to_Z v <> 0%Z) as Hz.
    { intros E. apply Hne, byte_to_Z_inj. rewrite E. reflexivity. }
    rewrite Z.mod_small by lia. apply Z.div_small. lia.
Qed.

Lemma fold_or_xor_zero (l : list (byte * byte)) (v : byte) :
  fold_left (fun v xy => byte_or v (byte_xor (fst xy) (snd xy))) l v = Byte.x00
  <-> v = Byte.x00 /\ Forall (fun xy => fst xy = snd xy) l.
Proof.
  revert v. induction l as [|[x y] l IH]; intros v; simpl.
  - split; [intros ->; split; [reflexivity | constructor] | intros [-> _]; reflexivity].
  - rewrite IH, byte_or_eq_zero, byte_xor_eq_zero, Forall_cons. simpl. tauto.
Qed.

Lemma zip_diag_eq (x y : bytes) :
  length x = length y -> Forall (fun xy => fst xy = snd xy) (zip x y) -> x = y.
Proof.
  revert y. induction x as [|a x IH]; intros [|b y]; simpl; try discriminate; auto.
  intros Hl Hf. apply Forall_cons in Hf as [Hab Hf]. simpl in Hab. subst.
  f_equal. apply IH; [lia | assumption].
Qed.

Lemma zip_diag_refl (x : bytes) : Forall (fun xy => fst xy = snd xy) (zip x x).
Proof. induction x; simpl; constructor; auto. Qed.

Lemma zip_diag_prefix (x y : bytes) :
  length x <= length y ->
  Forall (fun xy => fst xy = snd xy) (zip x y) <-> x = take (length x) y.
Proof.
  revert y. induction x as [|a x IH]; intros [|b y]; simpl; intros Hl; try lia.
  - split; [reflexivity | constructor].
  - split; [reflexivity | constructor].
  - rewrite Forall_cons, IH by lia. simpl. split.
    + intros [-> <-]. reflexivity.
    + intros [= -> E]. split; [reflexivity | exact E].
Qed.

(** The loop of [subtle.ConstantTimeCompare] indexes [y] out of range
    when [y] is the shorter slice, and otherwise folds over the pairs of
    the first [len(x)] positions. *)
Lemma ConstantTimeCompare_loop_short (x y : bytes) (v : byte) :
  length y < length x -> ConstantTimeCompare_loop x y v = Panic.
Proof.
  revert y v. induction x as [|a x IH]; intros [|b y] v; simpl; intros Hl; try lia.
  - reflexivity.
  - apply IH. lia.
Qed.

Lemma ConstantTimeCompare_loop_fold (x y : bytes) (v : byte) :
  length x <= length y ->
  ConstantTimeCompare_loop x y v
  = Done (fold_left (fun v xy => byte_or v (byte_xor (fst xy) (snd xy))) (zip x y) v).
Proof.
  revert y v. induction x as [|a x IH]; intros [|b y] v; simpl; intros Hl; try lia.
  - reflexivity.
  - reflexivity.
  - apply IH. lia.
Qed.

Lemma ConstantTimeCompare_short (x y : bytes) :
  length y < length x -> ConstantTimeCompare x y = Panic.
Proof.
  intros Hl. unfold ConstantTimeCompare.
  rewrite ConstantTimeCompare_loop_short by exact Hl. reflexivity.
Qed.

(** When [y] is at least as long as [x], the result is 1 if [x] is the
    front of [y] and 0 otherwise. *)
Lemma ConstantTimeCompare_prefix (x y : bytes) :
  length x <= length y ->
  ConstantTimeCompare x y
  = Done (if decide (x = take (length x) y) then 1%Z else 0%Z).
Proof.
  intros Hl. unfold ConstantTimeCompare.
  rewrite ConstantTimeCompare_loop_fold by exact Hl. f_equal.
  rewrite ConstantTimeByteEq_zero.
  destruct (decide (x = take (length x) y)) as [E | Hne].
  - rewrite decide_True; [reflexivity |].
    apply fold_or_xor_zero. split; [reflexivity |].
    apply zip_diag_prefix; assumption.
  - rewrite decide_False; [reflexivity |].
    intros E. apply fold_or_xor_zero in E as [_ E].
    apply Hne, zip_diag_prefix; assumption.
Qed.

(** On slices of equal length it is 1 on equal slices and 0 otherwise. *)
Lemma ConstantTimeCompare_spec (x y : bytes) :
  length x = length y ->
  ConstantTimeCompare x y = Done (if decide (x = y) then 1%Z else 0%Z).
Proof.
  intros Hl. rewrite ConstantTimeCompare_prefix by lia.
  rewrite Hl, firstn_all. reflexivity.
Qed.

Lemma decide_eqb_1 (P : Prop) `{Decision P} :
  ((if decide P then 1 else 0) =? 1)%Z = bool_decide P.
Proof.
  destruct (decide P).
  - rewrite bool_decide_eq_true_2; auto.
  - rewrite bool_decide_eq_false_2; auto.
Qed.

Lemma xor_bytes_length (a b : bytes) :
  length a = length b -> length (xor_bytes a b) = length a.
Proof. intros E. unfold xor_bytes. rewrite length_zip_with. lia. Qed.

Lemma xor_bytes_involutive (a b : bytes) :
  length a = length b -> xor_bytes (xor_bytes a b) b = a.
Proof.
  unfold xor_bytes. revert b.
  induction a as [|x a IH]; intros [|y b]; simpl; try discriminate; auto.
  intros E. rewrite byte_xor_involutive, IH by lia. reflexivity.
Qed.

(** The four bytes [binary.Write] emits for a length below [2 ^ 32] read
    back, big-endian, as that length. *)
Lemma big_SetBytes_PutUint32 (v : Z) :
  (0 <= v < 2 ^ 32)%Z -> big_SetBytes (BigEndian_PutUint32 v) = v.
Proof.
  intros Hv. unfold big_SetBytes, BigEndian_PutUint32. simpl.
  rewrite !byte_to_Z_uint8, !Z.shiftr_div_pow2 by lia.
  change (2 ^ 24)%Z with 16777216%Z. change (2 ^ 16)%Z with 65536%Z.
  change (2 ^ 8)%Z with 256%Z. change (2 ^ 32)%Z with 4294967296%Z in Hv.
  Z.div_mod_to_equations. lia.
Qed.

Lemma length_PutUint32 (v : Z) : length (BigEndian_PutUint32 v) = 4.
Proof. reflexivity. Qed.

(** ** The execution model *)

Lemma bind_Done {A B} (t : list event) (a : A) (k : A -> M B) :
  ((t, Done a) ≫= k) = (t ++ trace (k a), outcome (k a)).
Proof. unfold mbind, M_bind, trace, outcome. destruct (k a). reflexivity. Qed.

Lemma bind_Panic {A B} (t : list event) (k : A -> M B) :
  ((t, Panic) ≫= k) = (t, Panic).
Proof. reflexivity. Qed.

Lemma bind_ret {A B} (a : A) (k : A -> M B) : (mret a ≫= k) = k a.
Proof. unfold mret, M_ret. rewrite bind_Done. destruct (k a). reflexivity. Qed.

Lemma bind_call {A B} (e : event) (a : A) (k : A -> M B) :
  (call e a ≫= k) = (e :: trace (k a), outcome (k a)).
Proof. unfold call. rewrite bind_Done. reflexivity. Qed.

Lemma slice_in_range (s : bytes) (lo hi : nat) :
  lo <= hi <= length s -> slice s lo hi = mret (take (hi - lo) (drop lo s)).
Proof.
  intros [H1 H2]. unfold slice.
  apply Nat.leb_le in H1, H2. rewrite H1, H2. reflexivity.
Qed.

Lemma slice_out_of_range (s : bytes) (lo hi : nat) :
  ~ lo <= hi <= length s -> slice s lo hi = panic.
Proof.
  intros Hn. unfold slice.
  destruct (lo <=? hi) eqn:E1; [| reflexivity].
  destruct (hi <=? length s) eqn:E2; [| reflexivity].
  apply Nat.leb_le in E1, E2. lia.
Qed.

Lemma slice_from_in_range (s : bytes) (lo : nat) :
  lo <= length s -> slice_from s lo = mret (drop lo s).
Proof.
  intros Hlo. unfold slice_from. rewrite slice_in_range by lia.
  rewrite take_ge; [reflexivity |]. rewrite length_drop. lia.
Qed.

(** ** MAC key *)

Section MacKey.

Context `{Lib : Library}.

Lemma hmacKey_Sign_eq (hm : hmacKey) (msg : bytes) :
  hmacKey_Sign hm msg
  = ([ev_hmac_Sum (hmacKey_key hm) msg],
     Done (Some (hmac_sha1 (hmacKey_key hm) msg), None)).
Proof. reflexivity. Qed.

(** [Verify] on a tag at least as long as the HMAC: the bytes of the tag
    past the length of the HMAC play no part. *)
Lemma hmacKey_Verify_long (hm : hmacKey) (msg tag : bytes) :
  let sig := hmac_sha1 (hmacKey_key hm) msg in
  length sig <= length tag ->
  hmacKey_Verify hm msg tag
  = ([ev_hmac_Sum (hmacKey_key hm) msg],
     Done (bool_decide (sig = take (length sig) tag), None)).
Proof.
  intros sig Hl. subst sig. unfold hmacKey_Verify. rewrite bind_call.
  cbn [hash_Sum hash_Write hmac_NewSHA1 hash_digest hash_written app].
  rewrite ConstantTimeCompare_prefix by exact Hl.
  unfold lift. rewrite bind_Done. cbn [trace outcome mret M_ret fst snd app].
  rewrite decide_eqb_1. reflexivity.
Qed.

Lemma hmacKey_Verify_eq (hm : hmacKey) (msg tag : bytes) :
  length (hmac_sha1 (hmacKey_key hm) msg) = length tag ->
  hmacKey_Verify hm msg tag
  = ([ev_hmac_Sum (hmacKey_key hm) msg],
     Done (bool_decide (hmac_sha1 (hmacKey_key hm) msg = tag), None)).
Proof.
  intros Hl. rewrite hmacKey_Verify_long by lia. cbn zeta.
  rewrite Hl, firstn_all. reflexivity.
Qed.

(** [Verify] on a tag shorter than the HMAC: the comparison indexes the
    tag out of range. *)
Lemma hmacKey_Verify_short (hm : hmacKey) (msg tag : bytes) :
  length tag < length (hmac_sha1 (hmacKey_key hm) msg) ->
  hmacKey_Verify hm msg tag = ([ev_hmac_Sum (hmacKey_key hm) msg], Panic).
Proof.
  intros Hl. unfold hmacKey_Verify. rewrite bind_call.
  cbn [hash_Sum hash_Write hmac_NewSHA1 hash_digest hash_written app].
  rewrite ConstantTimeCompare_short by exact Hl. reflexivity.
Qed.

End MacKey.

(** ** CBC *)

Section CBC.

Context `{Lib : Library}.

Hypothesis aes_block_length : forall key b,
  aes_key_size_ok key = true -> length b = aes_BlockSize ->
  length (aes_encryptBlock key b) = aes_BlockSize.

Hypothesis aes_block_inverse : forall key b,
  aes_key_size_ok key = true -> length b = aes_BlockSize ->
  aes_decryptBlock key (aes_encryptBlock key b) = b.

Lemma cbc_encrypt_length (n : nat) (key iv src : bytes) :
  aes_key_size_ok key = true -> length iv = aes_BlockSize ->
  length src = n * aes_BlockSize ->
  length (cbc_encrypt n key iv src) = n * aes_BlockSize.
Proof.
  intros Hk. revert iv src.
  induction n as [|n IH]; intros iv src Hiv Hsrc; cbn [cbc_encrypt]; [reflexivity |].
  assert (length (xor_bytes (take aes_BlockSize src) iv) = aes_BlockSize) as Hx.
  { rewrite xor_bytes_length; rewrite length_take; unfold aes_BlockSize in *; lia. }
  rewrite length_app, aes_block_length by assumption.
  rewrite IH; [reflexivity | apply aes_block_length; assumption |].
  rewrite length_drop. unfold aes_BlockSize in *. lia.
Qed.

Lemma cbc_decrypt_encrypt (n : nat) (key iv src : bytes) :
  aes_key_size_ok key = true -> length iv = aes_BlockSize ->
  length src = n * aes_BlockSize ->
  cbc_decrypt n key iv (cbc_encrypt n key iv src) = src.
Proof.
  intros Hk. revert iv src.
  induction n as [|n IH]; intros iv src Hiv Hsrc; cbn [cbc_encrypt cbc_decrypt].
  - destruct src; [reflexivity | discriminate].
  - assert (length (take aes_BlockSize src) = aes_BlockSize) as Ht.
    { rewrite length_take. unfold aes_BlockSize in *. lia. }
    assert (length (xor_bytes (take aes_BlockSize src) iv) = aes_BlockSize) as Hx.
    { rewrite xor_bytes_length; lia. }
    pose proof (aes_block_length key _ Hk Hx) as Hc.
    rewrite take_app_length' by (symmetry; assumption).
    rewrite drop_app_length' by (symmetry; assumption).
    rewrite aes_block_inverse by assumption.
    rewrite xor_bytes_involutive by lia.
    rewrite IH; [apply take_drop | assumption |].
    rewrite length_drop. unfold aes_BlockSize in *. lia.
Qed.

End CBC.

(** ** Symmetric key *)

Section Symmetric.

Context `{Lib : Library} `{Pkg : Package}.

Lemma length_make_bytes (n : nat) : length (make_bytes n) = n.
Proof. apply length_replicate. Qed.

Lemma length_io_ReadFull (reader buf : bytes) :
  length (io_ReadFull reader buf) = length buf.
Proof.
  unfold io_ReadFull. rewrite length_take, length_app, length_drop. lia.
Qed.

Lemma aes_NewCipher_ok (key : bytes) :
  aes_key_size_ok key = true ->
  aes_NewCipher key = call (ev_aes_NewCipher key) (Some {| block_key := key |}, None).
Proof. intros Hk. unfold aes_NewCipher. rewrite Hk. reflexivity. Qed.

Lemma aes_NewCipher_bad (key : bytes) :
  aes_key_size_ok key = false ->
  aes_NewCipher key
  = call (ev_aes_NewCipher key) (None, Some (aes_KeySizeError (length key))).
Proof. intros Hk. unfold aes_NewCipher. rewrite Hk. reflexivity. Qed.

Lemma CryptBlocks_whole (decrypt : bool) (b : cipher_Block) (iv dst src : bytes) :
  length src mod aes_BlockSize = 0 -> length dst = length src ->
  CryptBlocks {| mode_decrypt := decrypt; mode_block := b; mode_iv := iv |} dst src
  = if decrypt
    then call (ev_cbc_Decrypt (block_key b) iv src)
              (cbc_decrypt (length src / aes_BlockSize) (block_key b) iv src)
    else call (ev_cbc_Encrypt (block_key b) iv src)
              (cbc_encrypt (length src / aes_BlockSize) (block_key b) iv src).
Proof.
  intros Hm Hl. unfold CryptBlocks. cbn [mode_decrypt mode_block mode_iv].
  rewrite Hm, Nat.eqb_refl. cbn [negb].
  rewrite (proj2 (Nat.ltb_ge _ _)) by lia.
  rewrite drop_ge by lia. rewrite !app_nil_r. reflexivity.
Qed.

Lemma CryptBlocks_partial (mode : cipher_BlockMode) (dst src : bytes) :
  length src mod aes_BlockSize <> 0 -> CryptBlocks mode dst src = panic.
Proof.
  intros Hm. unfold CryptBlocks.
  rewrite (proj2 (Nat.eqb_neq _ _) Hm). reflexivity.
Qed.

Lemma aesKey_Encrypt_eq (ak : aesKey) (rand_Reader p : bytes) :
  aes_key_size_ok (aesKey_key ak) = true ->
  length (pkcs5pad p aes_BlockSize) mod aes_BlockSize = 0 ->
  let key := aesKey_key ak in
  let hk := hmacKey_key (aesKey_hmacKey ak) in
  let padded := pkcs5pad p aes_BlockSize in
  let iv := io_ReadFull rand_Reader (make_bytes aes_BlockSize) in
  let ct := cbc_encrypt (length padded / aes_BlockSize) key iv padded in
  let msg := makeHeader (key_aes ak) ++ iv ++ ct in
  aesKey_Encrypt ak rand_Reader p
  = ([ev_aes_NewCipher key; ev_cbc_Encrypt key iv padded; ev_hmac_Sum hk msg],
     Done (Some (msg ++ hmac_sha1 hk msg), None)).
Proof.
  intros Hk Hp key hk padded iv ct msg. subst key hk padded iv ct msg.
  unfold aesKey_Encrypt.
  rewrite aes_NewCipher_ok by assumption. rewrite bind_call.
  cbn beta iota.
  unfold cipher_NewCBCEncrypter.
  rewrite length_io_ReadFull, length_make_bytes, Nat.eqb_refl.
  rewrite bind_ret.
  rewrite CryptBlocks_whole; [| assumption | apply length_make_bytes].
  rewrite bind_call. cbn beta iota. rewrite hmacKey_Sign_eq, bind_Done.
  cbn [trace outcome fst snd mret M_ret bytes_of default block_key app].
  rewrite <- !app_assoc. reflexivity.
Qed.

Lemma aesKey_Decrypt_short (ak : aesKey) (data : bytes) :
  length data < kzHeaderLength + aes_BlockSize + hmacSigLength ->
  aesKey_Decrypt ak data = mret (None, Some ErrShortCiphertext).
Proof.
  intros Hs. unfold aesKey_Decrypt.
  rewrite (proj2 (Nat.ltb_lt _ _)) by assumption. reflexivity.
Qed.

(** [Decrypt] on an input that passes the length check: the two slices
    are in range, the HMAC is computed and compared with the trailing 20
    bytes, and what follows depends on the comparison alone. *)
Lemma aesKey_Decrypt_compared (ak : aesKey) (data : bytes) :
  kzHeaderLength + aes_BlockSize + hmacSigLength <= length data ->
  let hk := hmacKey_key (aesKey_hmacKey ak) in
  aesKey_Decrypt ak data
  = match ConstantTimeCompare (hmac_sha1 hk (envelope_msg data)) (envelope_tag data) with
    | Panic => ([ev_hmac_Sum hk (envelope_msg data)], Panic)
    | Done c =>
        if (c =? 1)%Z
        then (ev_hmac_Sum hk (envelope_msg data) :: trace (aesKey_Decrypt_accepted ak data),
              outcome (aesKey_Decrypt_accepted ak data))
        else ([ev_hmac_Sum hk (envelope_msg data)], Done (None, Some ErrInvalidSignature))
    end.
Proof.
  intros Hl hk. subst hk. unfold aesKey_Decrypt, envelope_msg, envelope_tag.
  rewrite (proj2 (Nat.ltb_ge _ _)) by assumption.
  rewrite (slice_in_range data 0 (length data - hmacSigLength)) by lia.
  rewrite bind_ret.
  rewrite slice_from_in_range by lia. rewrite bind_ret.
  rewrite Nat.sub_0_r, drop_0.
  fold (aesKey_Decrypt_accepted ak data).
  unfold hmacKey_Verify.
  cbn [hash_Sum hash_Write hmac_NewSHA1 hash_digest hash_written app].
  rewrite bind_call. cbn beta.
  destruct (ConstantTimeCompare _ _) as [|c]; [reflexivity |].
  unfold lift. rewrite bind_Done.
  cbn [trace outcome fst snd mret M_ret app].
  rewrite bind_Done. cbn [failed]. rewrite orb_false_r.
  destruct (c =? 1)%Z; cbn [negb default from_option trace outcome fst snd app mret M_ret];
    reflexivity.
Qed.

Lemma aesKey_Decrypt_good_tag (ak : aesKey) (data : bytes) :
  kzHeaderLength + aes_BlockSize + hmacSigLength <= length data ->
  hmac_sha1 (hmacKey_key (aesKey_hmacKey ak)) (envelope_msg data) = envelope_tag data ->
  aesKey_Decrypt ak data
  = (ev_hmac_Sum (hmacKey_key (aesKey_hmacKey ak)) (envelope_msg data)
       :: trace (aesKey_Decrypt_accepted ak data),
     outcome (aesKey_Decrypt_accepted ak data)).
Proof.
  intros Hl Ht. rewrite aesKey_Decrypt_compared by assumption. cbn zeta.
  rewrite ConstantTimeCompare_spec by (rewrite Ht; reflexivity).
  rewrite decide_eqb_1, bool_decide_eq_true_2 by assumption. reflexivity.
Qed.

Lemma aesKey_Decrypt_bad_tag (ak : aesKey) (data : bytes) :
  kzHeaderLength + aes_BlockSize + hmacSigLength <= length data ->
  length (hmac_sha1 (hmacKey_key (aesKey_hmacKey ak)) (envelope_msg data)) = hmacSigLength ->
  hmac_sha1 (hmacKey_key (aesKey_hmacKey ak)) (envelope_msg data) <> envelope_tag data ->
  aesKey_Decrypt ak data
  = ([ev_hmac_Sum (hmacKey_key (aesKey_hmacKey ak)) (envelope_msg data)],
     Done (None, Some ErrInvalidSignature)).
Proof.
  intros Hl Hs Ht. rewrite aesKey_Decrypt_compared by assumption. cbn zeta.
  rewrite ConstantTimeCompare_spec.
  - rewrite decide_eqb_1, bool_decide_eq_false_2 by assumption. reflexivity.
  - rewrite Hs. unfold envelope_tag. rewrite length_drop. lia.
Qed.

Lemma length_envelope_body (data : bytes) :
  kzHeaderLength + aes_BlockSize + hmacSigLength <= length data ->
  length (envelope_body data)
  = length data - kzHeaderLength - hmacSigLength - aes_BlockSize.
Proof.
  intros Hl. unfold envelope_body. rewrite length_take, length_drop. lia.
Qed.

(** The steps after an accepted tag, by the size of the AES key and the
    length of the ciphertext. *)
Lemma aesKey_Decrypt_accepted_bad_key (ak : aesKey) (data : bytes) :
  kzHeaderLength + aes_BlockSize + hmacSigLength <= length data ->
  aes_key_size_ok (aesKey_key ak) = false ->
  aesKey_Decrypt_accepted ak data
  = ([ev_aes_NewCipher (aesKey_key ak)],
     Done (None, Some (aes_KeySizeError (length (aesKey_key ak))))).
Proof.
  intros Hl Hk. unfold aesKey_Decrypt_accepted.
  rewrite (slice_in_range data kzHeaderLength) by lia. rewrite bind_ret.
  rewrite aes_NewCipher_bad by assumption. reflexivity.
Qed.

Lemma aesKey_Decrypt_accepted_partial_block (ak : aesKey) (data : bytes) :
  kzHeaderLength + aes_BlockSize + hmacSigLength <= length data ->
  aes_key_size_ok (aesKey_key ak) = true ->
  length (envelope_body data) mod aes_BlockSize <> 0 ->
  aesKey_Decrypt_accepted ak data = ([ev_aes_NewCipher (aesKey_key ak)], Panic).
Proof.
  intros Hl Hk Hb. unfold aesKey_Decrypt_accepted.
  rewrite (slice_in_range data kzHeaderLength) by lia. rewrite bind_ret.
  rewrite aes_NewCipher_ok by assumption. rewrite bind_call. cbn beta iota.
  unfold cipher_NewCBCDecrypter.
  rewrite length_take, length_drop.
  rewrite (proj2 (Nat.eqb_eq _ _)) by (unfold aes_BlockSize, hmacSigLength in *; lia).
  rewrite bind_ret. rewrite slice_in_range by lia. rewrite bind_ret.
  fold (envelope_body data).
  rewrite CryptBlocks_partial by assumption. reflexivity.
Qed.

Lemma aesKey_Decrypt_accepted_whole_blocks (ak : aesKey) (data : bytes) :
  kzHeaderLength + aes_BlockSize + hmacSigLength <= length data ->
  aes_key_size_ok (aesKey_key ak) = true ->
  length (envelope_body data) mod aes_BlockSize = 0 ->
  let key := aesKey_key ak in
  let plain := cbc_decrypt (length (envelope_body data) / aes_BlockSize) key
                           (envelope_iv data) (envelope_body data) in
  aesKey_Decrypt_accepted ak data
  = ([ev_aes_NewCipher key;
      ev_cbc_Decrypt key (envelope_iv data) (envelope_body data)],
     match pkcs5unpad plain with
     | Panic => Panic
     | Done plainBytes => Done (Some plainBytes, None)
     end).
Proof.
  intros Hl Hk Hb key plain. subst key plain. unfold aesKey_Decrypt_accepted.
  rewrite (slice_in_range data kzHeaderLength) by lia. rewrite bind_ret.
  rewrite aes_NewCipher_ok by assumption. rewrite bind_call. cbn beta iota.
  unfold cipher_NewCBCDecrypter.
  rewrite length_take, length_drop.
  rewrite (proj2 (Nat.eqb_eq _ _)) by (unfold aes_BlockSize, hmacSigLength in *; lia).
  rewrite bind_ret. rewrite slice_in_range by lia. rewrite bind_ret.
  fold (envelope_body data).
  replace (kzHeaderLength + aes_BlockSize - kzHeaderLength) with aes_BlockSize by lia.
  fold (envelope_iv data).
  rewrite CryptBlocks_whole;
    [| assumption | rewrite length_make_bytes, length_envelope_body by assumption; reflexivity].
  rewrite bind_call. cbn [block_key trace outcome fst snd].
  unfold lift. destruct (pkcs5unpad _); reflexivity.
Qed.

(** After an accepted tag the only error is that of the cipher
    constructor. *)
Lemma aesKey_Decrypt_accepted_errors (ak : aesKey) (data : bytes)
    (r : option bytes) (e : error) :
  kzHeaderLength + aes_BlockSize + hmacSigLength <= length data ->
  outcome (aesKey_Decrypt_accepted ak data) = Done (r, Some e) ->
  r = None /\ e = aes_KeySizeError (length (aesKey_key ak))
  /\ aes_key_size_ok (aesKey_key ak) = false.
Proof.
  intros Hl.
  destruct (aes_key_size_ok (aesKey_key ak)) eqn:Hk.
  2: { rewrite aesKey_Decrypt_accepted_bad_key by assumption. cbn.
       intros [= <- <-]. auto. }
  destruct (decide (length (envelope_body data) mod aes_BlockSize = 0)) as [Hb | Hb].
  - rewrite aesKey_Decrypt_accepted_whole_blocks by assumption. cbn.
    destruct (pkcs5unpad _); discriminate.
  - rewrite aesKey_Decrypt_accepted_partial_block by assumption. discriminate.
Qed.

Lemma aesKey_Decrypt_bad_key (ak : aesKey) (data : bytes) :
  kzHeaderLength + aes_BlockSize + hmacSigLength <= length data ->
  hmac_sha1 (hmacKey_key (aesKey_hmacKey ak)) (envelope_msg data) = envelope_tag data ->
  aes_key_size_ok (aesKey_key ak) = false ->
  aesKey_Decrypt ak data
  = ([ev_hmac_Sum (hmacKey_key (aesKey_hmacKey ak)) (envelope_msg data);
      ev_aes_NewCipher (aesKey_key ak)],
     Done (None, Some (aes_KeySizeError (length (aesKey_key ak))))).
Proof.
  intros Hl Ht Hk. rewrite aesKey_Decrypt_good_tag by assumption.
  rewrite aesKey_Decrypt_accepted_bad_key by assumption. reflexivity.
Qed.

Lemma aesKey_Decrypt_partial_block (ak : aesKey) (data : bytes) :
  kzHeaderLength + aes_BlockSize + hmacSigLength <= length data ->
  hmac_sha1 (hmacKey_key (aesKey_hmacKey ak)) (envelope_msg data) = envelope_tag data ->
  aes_key_size_ok (aesKey_key ak) = true ->
  length (envelope_body data) mod aes_BlockSize <> 0 ->
  aesKey_Decrypt ak data
  = ([ev_hmac_Sum (hmacKey_key (aesKey_hmacKey ak)) (envelope_msg data);
      ev_aes_NewCipher (aesKey_key ak)],
     Panic).
Proof.
  intros Hl Ht Hk Hb. rewrite aesKey_Decrypt_good_tag by assumption.
  rewrite aesKey_Decrypt_accepted_partial_block by assumption. reflexivity.
Qed.

Lemma aesKey_Decrypt_whole_blocks (ak : aesKey) (data : bytes) :
  kzHeaderLength + aes_BlockSize + hmacSigLength <= length data ->
  hmac_sha1 (hmacKey_key (aesKey_hmacKey ak)) (envelope_msg data) = envelope_tag data ->
  aes_key_size_ok (aesKey_key ak) = true ->
  length (envelope_body data) mod aes_BlockSize = 0 ->
  let key := aesKey_key ak in
  let plain := cbc_decrypt (length (envelope_body data) / aes_BlockSize) key
                           (envelope_iv data) (envelope_body data) in
  aesKey_Decrypt ak data
  = ([ev_hmac_Sum (hmacKey_key (aesKey_hmacKey ak)) (envelope_msg data);
      ev_aes_NewCipher key;
      ev_cbc_Decrypt key (envelope_iv data) (envelope_body data)],
     match pkcs5unpad plain with
     | Panic => Panic
     | Done plainBytes => Done (Some plainBytes, None)
     end).
Proof.
  intros Hl Ht Hk Hb key plain. subst key plain.
  rewrite aesKey_Decrypt_good_tag by assumption.
  rewrite aesKey_Decrypt_accepted_whole_blocks by assumption. reflexivity.
Qed.

End Symmetric.

(** ** Envelopes *)

Section Envelope.

Context `{Pkg : Package}.

Lemma envelope_msg_tag (data : bytes) : envelope_msg data ++ envelope_tag data = data.
Proof. apply take_drop. Qed.

Lemma length_envelope_tag (data : bytes) :
  hmacSigLength <= length data -> length (envelope_tag data) = hmacSigLength.
Proof. intros Hl. unfold envelope_tag. rewrite length_drop. lia. Qed.

(** An envelope put together from a header, an IV, a ciphertext and a
    tag of the right lengths splits into the same four parts. *)
Lemma envelope_parts (h iv ct tag : bytes) :
  length h = kzHeaderLength -> length iv = aes_BlockSize ->
  length tag = hmacSigLength ->
  let data := (h ++ iv ++ ct) ++ tag in
  length data = kzHeaderLength + aes_BlockSize + length ct + hmacSigLength
  /\ envelope_msg data = h ++ iv ++ ct
  /\ envelope_tag data = tag
  /\ envelope_iv data = iv
  /\ envelope_body data = ct.
Proof.
  intros Hh Hiv Htag data.
  assert (length data = kzHeaderLength + aes_BlockSize + length ct + hmacSigLength) as Hl.
  { subst data. rewrite !length_app. lia. }
  assert (length (h ++ iv ++ ct) = length data - hmacSigLength) as Hm.
  { rewrite !length_app. lia. }
  split; [assumption |]. split; [| split; [| split]].
  - unfold envelope_msg. rewrite <- Hm. subst data. apply take_app_length.
  - unfold envelope_tag. rewrite <- Hm. subst data. apply drop_app_length.
  - unfold envelope_iv. subst data. rewrite <- !app_assoc, <- Hh, drop_app_length.
    rewrite <- Hiv. apply take_app_length.
  - unfold envelope_body. rewrite Hl. subst data.
    rewrite <- !app_assoc, (app_assoc h iv).
    replace (kzHeaderLength + aes_BlockSize) with (length (h ++ iv))
      by (rewrite length_app; lia).
    rewrite drop_app_length.
    replace (length (h ++ iv) + length ct + hmacSigLength - hmacSigLength - length (h ++ iv))
      with (length ct) by lia.
    apply take_app_length.
Qed.

End Envelope.

(** ** Symmetric decryption: order of checks and error results *)

Section Decrypt.

Context `{Lib : Library} `{Pkg : Package}.

(** HMAC-SHA1 tags have 20 bytes. *)
Hypothesis hmac_Size : forall key m, length (hmac_sha1 key m) = hmacSigLength.

(** C4. An input shorter than [kzHeaderLength + 16 + 20] bytes makes
    [Decrypt] return [(nil, ErrShortCiphertext)]: it does not panic and
    calls no primitive. *)
Theorem aesKey_Decrypt_short_input (ak : aesKey) (data : bytes) :
  length data < kzHeaderLength + 16 + 20 ->
  aesKey_Decrypt ak data = ([], Done (None, Some ErrShortCiphertext)).
Proof using Type. intros Hs. apply aesKey_Decrypt_short. exact Hs. Qed.

(** C1. On an input that passes the length check, the first primitive
    [Decrypt] calls is the HMAC of the bundled MAC key over everything
    before the trailing 20 bytes; any further call (the cipher, the CBC
    decryption) happens only when that HMAC equals the trailing 20
    bytes; and when it differs, [Decrypt] returns
    [(nil, ErrInvalidSignature)] having called nothing else. The HMAC has
    20 bytes, as HMAC-SHA1 does. *)
Theorem aesKey_Decrypt_verifies_first (ak : aesKey) (data : bytes) :
  kzHeaderLength + 16 + 20 <= length data ->
  let hk := hmacKey_key (aesKey_hmacKey ak) in
  let msg := envelope_msg data in
  let tag := envelope_tag data in
  msg ++ tag = data /\ length tag = 20
  /\ (exists rest,
        trace (aesKey_Decrypt ak data) = ev_hmac_Sum hk msg :: rest
        /\ (rest <> [] -> hmac_sha1 hk msg = tag))
  /\ (hmac_sha1 hk msg <> tag ->
      aesKey_Decrypt ak data
      = ([ev_hmac_Sum hk msg], Done (None, Some ErrInvalidSignature))).
Proof using hmac_Size.
  intros Hl hk msg tag. subst hk msg tag.
  split; [apply envelope_msg_tag |].
  split; [apply length_envelope_tag; unfold hmacSigLength; lia |].
  split.
  - destruct (decide (hmac_sha1 (hmacKey_key (aesKey_hmacKey ak)) (envelope_msg data)
                      = envelope_tag data)) as [Heq | Hne].
    + rewrite aesKey_Decrypt_good_tag by assumption.
      eexists. split; [reflexivity | intros _; exact Heq].
    + rewrite aesKey_Decrypt_bad_tag by first [assumption | apply hmac_Size].
      exists []. split; [reflexivity | intros Hr; contradiction].
  - intros Hne. apply aesKey_Decrypt_bad_tag; first [assumption | apply hmac_Size].
Qed.

(** C2 (as the code has it). Once the length check, the MAC check and
    [aes.NewCipher] have passed and the ciphertext is a whole number of
    blocks, [Decrypt] returns what [pkcs5unpad] returns for the
    CBC-decrypted bytes, with a nil error, whatever the padding looks
    like; it panics exactly when [pkcs5unpad] does. No error is returned
    for malformed padding. *)
Theorem aesKey_Decrypt_returns_unpadded (ak : aesKey) (data : bytes) :
  kzHeaderLength + 16 + 20 <= length data ->
  hmac_sha1 (hmacKey_key (aesKey_hmacKey ak)) (envelope_msg data) = envelope_tag data ->
  aes_key_size_ok (aesKey_key ak) = true ->
  length (envelope_body data) mod 16 = 0 ->
  let plain := cbc_decrypt (length (envelope_body data) / 16) (aesKey_key ak)
                           (envelope_iv data) (envelope_body data) in
  outcome (aesKey_Decrypt ak data)
  = match pkcs5unpad plain with
    | Panic => Panic
    | Done plainBytes => Done (Some plainBytes, None)
    end
  /\ forall r e, outcome (aesKey_Decrypt ak data) <> Done (r, Some e).
Proof using Type.
  intros Hl Ht Hk Hb plain. subst plain.
  rewrite aesKey_Decrypt_whole_blocks by assumption. cbn [outcome snd].
  fold aes_BlockSize.
  split; [reflexivity |].
  intros r e. destruct (pkcs5unpad _); discriminate.
Qed.

(** X7. Every error [Decrypt] returns is one of three, each with a nil
    plaintext; none of them comes from the padding. *)
Lemma aesKey_Decrypt_errors (ak : aesKey) (data : bytes) (r : option bytes) (e : error) :
  outcome (aesKey_Decrypt ak data) = Done (r, Some e) ->
  r = None
  /\ (e = ErrShortCiphertext \/ e = ErrInvalidSignature
      \/ e = aes_KeySizeError (length (aesKey_key ak))).
Proof using Type.
  destruct (Nat.lt_ge_cases (length data)
              (kzHeaderLength + aes_BlockSize + hmacSigLength)) as [Hs | Hl].
  { rewrite aesKey_Decrypt_short by assumption. cbn. intros [= <- <-]. auto. }
  rewrite aesKey_Decrypt_compared by assumption. cbn zeta.
  destruct (ConstantTimeCompare _ _) as [|c]; [discriminate |].
  destruct (c =? 1)%Z.
  - cbn [outcome snd]. intros Ho.
    destruct (aesKey_Decrypt_accepted_errors ak data r e Hl Ho) as (-> & -> & _). auto.
  - cbn. intros [= <- <-]. auto.
Qed.

End Decrypt.

(** ** Symmetric encryption: envelope length and round trip *)

Section Encrypt.

Context `{Lib : Library} `{Pkg : Package}.

(** What the rest of the package and the primitives are relied on for:
    the header has its fixed length, an HMAC-SHA1 tag has 20 bytes, the
    AES block function maps 16 bytes to 16 bytes and is inverted by the
    decryption function, and [pkcs5pad] adds between 1 and 16 bytes that
    [pkcs5unpad] removes. *)
Hypothesis makeHeader_length : forall k, length (makeHeader k) = kzHeaderLength.

Hypothesis hmac_Size : forall key m, length (hmac_sha1 key m) = hmacSigLength.

Hypothesis aes_block_length : forall key b,
  aes_key_size_ok key = true -> length b = aes_BlockSize ->
  length (aes_encryptBlock key b) = aes_BlockSize.

Hypothesis aes_block_inverse : forall key b,
  aes_key_size_ok key = true -> length b = aes_BlockSize ->
  aes_decryptBlock key (aes_encryptBlock key b) = b.

Hypothesis pkcs5pad_length : forall p,
  length (pkcs5pad p aes_BlockSize)
  = length p + (aes_BlockSize - length p mod aes_BlockSize).

Hypothesis pkcs5unpad_pkcs5pad : forall p,
  pkcs5unpad (pkcs5pad p aes_BlockSize) = Done p.

Lemma pkcs5pad_whole_blocks (p : bytes) :
  length (pkcs5pad p aes_BlockSize) mod aes_BlockSize = 0.
Proof using pkcs5pad_length.
  rewrite pkcs5pad_length. unfold aes_BlockSize.
  pose proof (Nat.div_mod_eq (length p) 16) as Hd.
  pose proof (Nat.mod_upper_bound (length p) 16 ltac:(lia)) as Hm.
  replace (length p + (16 - length p mod 16)) with ((length p / 16 + 1) * 16) by lia.
  apply Nat.Div0.mod_mul.
Qed.

Lemma length_cbc_of_padded (key iv p : bytes) :
  aes_key_size_ok key = true -> length iv = aes_BlockSize ->
  let padded := pkcs5pad p aes_BlockSize in
  length (cbc_encrypt (length padded / aes_BlockSize) key iv padded) = length padded.
Proof using pkcs5pad_length aes_block_length.
  intros Hk Hiv padded.
  pose proof (pkcs5pad_whole_blocks p) as Hw. fold padded in Hw.
  assert (length padded = length padded / aes_BlockSize * aes_BlockSize) as Hn.
  { pose proof (Nat.div_mod_eq (length padded) aes_BlockSize). lia. }
  rewrite (cbc_encrypt_length aes_block_length) by assumption. lia.
Qed.

(** C9. With an AES key of 16, 24 or 32 bytes, [Encrypt] returns an
    envelope of [kzHeaderLength + 16 + len(pkcs5pad(p, 16)) + 20] bytes
    for every plaintext [p]; for the 11 bytes of "hello world" that is
    [kzHeaderLength + 16 + 16 + 20]. *)
Theorem aesKey_Encrypt_length (ak : aesKey) (rand_Reader p : bytes) :
  aes_key_size_ok (aesKey_key ak) = true ->
  exists msg,
    outcome (aesKey_Encrypt ak rand_Reader p) = Done (Some msg, None)
    /\ length msg = kzHeaderLength + 16 + length (pkcs5pad p 16) + 20
    /\ (p = list_byte_of_string "hello world" ->
        length msg = kzHeaderLength + 16 + 16 + 20).
Proof using makeHeader_length hmac_Size aes_block_length pkcs5pad_length.
  intros Hk.
  rewrite aesKey_Encrypt_eq by (auto using pkcs5pad_whole_blocks).
  cbn zeta. cbn [outcome snd]. eexists. split; [reflexivity |].
  assert (forall q : bytes,
            length ((makeHeader (key_aes ak)
                     ++ io_ReadFull rand_Reader (make_bytes aes_BlockSize)
                     ++ cbc_encrypt (length (pkcs5pad q aes_BlockSize) / aes_BlockSize)
                          (aesKey_key ak)
                          (io_ReadFull rand_Reader (make_bytes aes_BlockSize))
                          (pkcs5pad q aes_BlockSize))
                    ++ hmac_sha1 (hmacKey_key (aesKey_hmacKey ak))
                         (makeHeader (key_aes ak)
                          ++ io_ReadFull rand_Reader (make_bytes aes_BlockSize)
                          ++ cbc_encrypt (length (pkcs5pad q aes_BlockSize) / aes_BlockSize)
                               (aesKey_key ak)
                               (io_ReadFull rand_Reader (make_bytes aes_BlockSize))
                               (pkcs5pad q aes_BlockSize)))
            = kzHeaderLength + 16 + length (pkcs5pad q 16) + 20) as Hlen.
  { intros q. rewrite !length_app, makeHeader_length, hmac_Size, length_io_ReadFull,
      length_make_bytes.
    rewrite length_cbc_of_padded
      by (auto; rewrite length_io_ReadFull; apply length_make_bytes).
    unfold aes_BlockSize, hmacSigLength. lia. }
  split; [apply Hlen |].
  intros ->. rewrite Hlen. fold aes_BlockSize. rewrite pkcs5pad_length. reflexivity.
Qed.

(** C3. With an AES key of 16, 24 or 32 bytes, whatever bytes the random
    source supplies for the IV, [Encrypt] returns an envelope and
    [Decrypt] of that envelope returns the plaintext, byte for byte. *)
Theorem aesKey_Decrypt_Encrypt (ak : aesKey) (rand_Reader p : bytes) :
  aes_key_size_ok (aesKey_key ak) = true ->
  exists msg,
    outcome (aesKey_Encrypt ak rand_Reader p) = Done (Some msg, None)
    /\ outcome (aesKey_Decrypt ak msg) = Done (Some p, None).
Proof using makeHeader_length hmac_Size aes_block_length aes_block_inverse
            pkcs5pad_length pkcs5unpad_pkcs5pad.
  intros Hk.
  rewrite aesKey_Encrypt_eq by (auto using pkcs5pad_whole_blocks).
  cbn zeta. cbn [outcome snd]. eexists. split; [reflexivity |].
  set (iv := io_ReadFull rand_Reader (make_bytes aes_BlockSize)).
  set (padded := pkcs5pad p aes_BlockSize).
  set (ct := cbc_encrypt (length padded / aes_BlockSize) (aesKey_key ak) iv padded).
  set (h := makeHeader (key_aes ak)).
  set (tag := hmac_sha1 (hmacKey_key (aesKey_hmacKey ak)) (h ++ iv ++ ct)).
  assert (length iv = aes_BlockSize) as Hiv.
  { subst iv. rewrite length_io_ReadFull. apply length_make_bytes. }
  assert (length ct = length padded) as Hct.
  { subst ct padded. apply length_cbc_of_padded; assumption. }
  destruct (envelope_parts h iv ct tag (makeHeader_length _) Hiv (hmac_Size _ _))
    as (Hlen & Hmsg & Htag & Hiv' & Hbody).
  pose proof (pkcs5pad_whole_blocks p) as Hw. fold padded in Hw.
  rewrite aesKey_Decrypt_whole_blocks.
  - cbn zeta. cbn [outcome snd]. rewrite Hbody, Hiv', Hct.
    subst ct. rewrite (cbc_decrypt_encrypt aes_block_length aes_block_inverse).
    + subst padded. rewrite pkcs5unpad_pkcs5pad. reflexivity.
    + assumption.
    + assumption.
    + pose proof (Nat.div_mod_eq (length padded) aes_BlockSize). lia.
  - rewrite Hlen. lia.
  - rewrite Hmsg, Htag. reflexivity.
  - assumption.
  - rewrite Hbody, Hct. assumption.
Qed.

End Encrypt.

(** ** The executable instance meets what is asked of the parameters *)

Lemma sample_digest_length (m : bytes) : length (Sample.digest m) = 20.
Proof. unfold Sample.digest. rewrite length_map, length_seq. reflexivity. Qed.

Lemma sample_keyed_digest_length (key m : bytes) :
  length (Sample.keyed_digest key m) = hmacSigLength.
Proof. apply sample_digest_length. Qed.

Lemma sample_round_key_length (key : bytes) :
  length (Sample.round_key key) = aes_BlockSize.
Proof.
  unfold Sample.round_key. rewrite length_take, length_app, length_make_bytes. lia.
Qed.

Lemma sample_rot_length (b : bytes) : length (Sample.rot b) = length b.
Proof. destruct b; simpl; [reflexivity |]. rewrite length_app. simpl. lia. Qed.

Lemma sample_unrot_rot (b : bytes) : Sample.unrot (Sample.rot b) = b.
Proof.
  destruct b as [|x b]; [reflexivity |].
  unfold Sample.rot, Sample.unrot. rewrite last_snoc.
  rewrite length_app. simpl.
  replace (length b + 1 - 1) with (length b) by lia.
  rewrite take_app_length. reflexivity.
Qed.

Lemma sample_block_length (key b : bytes) :
  aes_key_size_ok key = true -> length b = aes_BlockSize ->
  length (Sample.encryptBlock key b) = aes_BlockSize.
Proof.
  intros _ Hb. unfold Sample.encryptBlock.
  rewrite sample_rot_length, xor_bytes_length; rewrite ?sample_round_key_length; lia.
Qed.

Lemma sample_block_inverse (key b : bytes) :
  aes_key_size_ok key = true -> length b = aes_BlockSize ->
  Sample.decryptBlock key (Sample.encryptBlock key b) = b.
Proof.
  intros _ Hb. unfold Sample.decryptBlock, Sample.encryptBlock.
  rewrite sample_unrot_rot. apply xor_bytes_involutive.
  rewrite sample_round_key_length. exact Hb.
Qed.

Lemma sample_header_length (k : keyIDer) : length (Sample.header k) = Sample.headerLength.
Proof.
  unfold Sample.header, Sample.headerLength. simpl length.
  rewrite length_take, length_app, length_make_bytes. lia.
Qed.

Lemma sample_pad_length (p : bytes) :
  length (Sample.pad p aes_BlockSize)
  = length p + (aes_BlockSize - length p mod aes_BlockSize).
Proof. unfold Sample.pad. rewrite length_app, length_replicate. reflexivity. Qed.

Lemma sample_unpad_pad (p : bytes) :
  Sample.unpad (Sample.pad p aes_BlockSize) = Done p.
Proof.
  unfold Sample.pad, Sample.unpad, aes_BlockSize.
  pose proof (Nat.mod_upper_bound (length p) 16 ltac:(lia)) as Hm.
  set (n := 16 - length p mod 16).
  assert (1 <= n <= 16) as Hn by (subst n; lia).
  destruct n as [|n'] eqn:En; [lia |].
  rewrite replicate_S_end, app_assoc, last_snoc.
  rewrite byte_to_Z_uint8, Z.mod_small by lia. rewrite Nat2Z.id.
  rewrite <- app_assoc, <- replicate_S_end, length_app, length_replicate.
  rewrite (proj2 (Nat.leb_le _ _)) by lia.
  replace (length p + S n' - S n') with (length p) by lia.
  rewrite take_app_length. reflexivity.
Qed.

(** ** The model on small inputs *)

Example PutUint32_16 :
  BigEndian_PutUint32 (uint32 16) = [Byte.x00; Byte.x00; Byte.x00; Byte.x10].
Proof. reflexivity. Qed.

Example big_Bytes_65537 : big_Bytes 65537 = [Byte.x01; Byte.x00; Byte.x01].
Proof. reflexivity. Qed.

Example big_Bytes_zero : big_Bytes 0 = [].
Proof. reflexivity. Qed.

Example big_SetBytes_Bytes : big_SetBytes (big_Bytes 123456789) = 123456789%Z.
Proof. reflexivity. Qed.

Example ConstantTimeCompare_equal :
  ConstantTimeCompare (list_byte_of_string "tag") (list_byte_of_string "tag") = Done 1%Z.
Proof. reflexivity. Qed.

Example ConstantTimeCompare_differ :
  ConstantTimeCompare (list_byte_of_string "tag") (list_byte_of_string "tab") = Done 0%Z.
Proof. reflexivity. Qed.

Example ConstantTimeCompare_longer :
  ConstantTimeCompare (list_byte_of_string "tag") (list_byte_of_string "tags") = Done 1%Z.
Proof. reflexivity. Qed.

Example ConstantTimeCompare_shorter :
  ConstantTimeCompare (list_byte_of_string "tag") (list_byte_of_string "ta") = Panic.
Proof. reflexivity. Qed.

Example sample_pad_hello :
  Sample.pad Sample.hello 16
  = Sample.hello ++ [Byte.x05; Byte.x05; Byte.x05; Byte.x05; Byte.x05].
Proof. reflexivity. Qed.

Example sample_pad_full_block :
  length (Sample.pad Sample.entropy 16) = 32.
Proof. reflexivity. Qed.

Example sample_decode_hello :
  Sample.decode "aGVsbG8gd29ybGQ" = (Sample.hello, None).
Proof. reflexivity. Qed.

Example sample_decode_rejects :
  snd (Sample.decode "not base64!") = Some (OtherError "illegal base64 data").
Proof. reflexivity. Qed.

Example sample_load_one :
  exists m, newAesKeys (Lib := Sample.lib) (Pkg := Sample.pkg)
              Sample.reader (Sample.versions [1%Z]) = Done (Some m, None)
            /\ m !! 1%Z = Some (key_aes Sample.key).
Proof. eexists. split; [reflexivity |]. vm_compute. reflexivity. Qed.

Example sample_load_missing_version :
  newAesKeys (Lib := Sample.lib) (Pkg := Sample.pkg)
    Sample.reader (Sample.versions [1%Z; 4%Z]) = Done (None, Some ErrBase64Decoding)
  /\ newHmacKeys (Lib := Sample.lib) (Pkg := Sample.pkg)
       Sample.reader (Sample.versions [4%Z])
     = Done (None, Some (OtherError "no such version")).
Proof. split; reflexivity. Qed.

Example sample_load_null :
  newAesKeys (Lib := Sample.lib) (Pkg := Sample.pkg)
    Sample.reader (Sample.versions [1%Z; 5%Z]) = Panic.
Proof. reflexivity. Qed.

Example sample_rsa_short :
  rsaKey_Decrypt (Lib := Sample.lib) (Pkg := Sample.pkg)
    Sample.rsa_key (list_byte_of_string "abcd") = ([], Panic).
Proof. reflexivity. Qed.

(** ** MAC verification and key identifiers *)

Section Identity.

Context `{Lib : Library} `{Pkg : Package}.

Hypothesis sha1_Size : forall m, length (sha1_digest m) = 20.

Hypothesis hmac_Size : forall key m, length (hmac_sha1 key m) = hmacSigLength.

(** C7 (as the code has it). [Verify] never returns an error. For a tag
    of 20 bytes it returns true exactly when the tag is the HMAC-SHA1 of
    the message under the key, and false otherwise. A longer tag is
    judged by its first 20 bytes alone, and a shorter tag makes [Verify]
    panic: the comparison reads the tag at every index of the 20-byte
    HMAC. *)
Theorem hmacKey_Verify_correct (hm : hmacKey) (msg tag : bytes) :
  (length tag = 20 ->
   exists ok,
     outcome (hmacKey_Verify hm msg tag) = Done (ok, None)
     /\ (ok = true <-> tag = hmac_sha1 (hmacKey_key hm) msg))
  /\ (20 <= length tag ->
      exists ok,
        outcome (hmacKey_Verify hm msg tag) = Done (ok, None)
        /\ (ok = true <-> take 20 tag = hmac_sha1 (hmacKey_key hm) msg))
  /\ (length tag < 20 -> outcome (hmacKey_Verify hm msg tag) = Panic)
  /\ (forall ok e, outcome (hmacKey_Verify hm msg tag) <> Done (ok, Some e)).
Proof using hmac_Size.
  pose proof (hmac_Size (hmacKey_key hm) msg) as Hs. unfold hmacSigLength in Hs.
  assert (20 <= length tag ->
          exists ok,
            outcome (hmacKey_Verify hm msg tag) = Done (ok, None)
            /\ (ok = true <-> take 20 tag = hmac_sha1 (hmacKey_key hm) msg)) as Hlong.
  { intros Hl. rewrite hmacKey_Verify_long by lia. cbn [outcome snd].
    eexists. split; [reflexivity |]. rewrite Hs, bool_decide_eq_true.
    split; intros E; symmetry; exact E. }
  split; [| split; [exact Hlong | split]].
  - intros Hl. destruct Hlong as (ok & Ho & Hok); [lia |].
    exists ok. split; [exact Ho |]. rewrite Hok, <- Hl, firstn_all. reflexivity.
  - intros Hl. rewrite hmacKey_Verify_short by lia. reflexivity.
  - intros ok e. destruct (Nat.lt_ge_cases (length tag) 20) as [Hl | Hl].
    + rewrite hmacKey_Verify_short by lia. discriminate.
    + rewrite hmacKey_Verify_long by lia. discriminate.
Qed.

Lemma uint8_ext (a b : Z) : (a mod 256 = b mod 256)%Z -> uint8 a = uint8 b.
Proof. intros E. unfold uint8. rewrite E. reflexivity. Qed.

(** The four length bytes written ahead of the AES key are those of its
    length in base 256, most significant first. *)
Lemma PutUint32_uint32_digits (n : Z) :
  (0 <= n)%Z ->
  BigEndian_PutUint32 (uint32 n)
  = [uint8 (n / 256 ^ 3); uint8 (n / 256 ^ 2); uint8 (n / 256 ^ 1); uint8 n].
Proof.
  intros Hn. unfold BigEndian_PutUint32, uint32.
  rewrite !Z.shiftr_div_pow2 by lia.
  change (2 ^ 32)%Z with 4294967296%Z. change (2 ^ 24)%Z with 16777216%Z.
  change (2 ^ 16)%Z with 65536%Z. change (2 ^ 8)%Z with 256%Z.
  change (256 ^ 3)%Z with 16777216%Z. change (256 ^ 2)%Z with 65536%Z.
  change (256 ^ 1)%Z with 256%Z.
  repeat (apply (f_equal2 cons); [apply uint8_ext; Z.div_mod_to_equations; lia |]).
  reflexivity.
Qed.

(** C8. The KeyID of a symmetric key is the first 4 bytes of the SHA-1
    digest of: the length of the AES key as 4 big-endian bytes, the AES
    key, the MAC key. *)
Theorem aesKey_KeyID_spec (ak : aesKey) :
  let key := aesKey_key ak in
  let n := Z.of_nat (length key) in
  let be4 := [uint8 (n / 256 ^ 3); uint8 (n / 256 ^ 2); uint8 (n / 256 ^ 1); uint8 n] in
  KeyID ak = take 4 (sha1_digest (be4 ++ key ++ hmacKey_key (aesKey_hmacKey ak)))
  /\ length (KeyID ak) = 4
  /\ ((n < 2 ^ 32)%Z -> big_SetBytes be4 = n).
Proof using sha1_Size.
  intros key n be4. subst key n be4.
  unfold KeyID, KeyIDer_aesKey, aesKey_KeyID.
  unfold binary_Write_uint32, hash_Write, hash_Sum, sha1_New. cbn [hash_digest hash_written].
  rewrite PutUint32_uint32_digits by lia. rewrite !app_nil_l, <- app_assoc.
  split; [reflexivity |]. split.
  - rewrite length_take, sha1_Size. reflexivity.
  - intros Hlt. rewrite <- PutUint32_uint32_digits by lia.
    unfold uint32. rewrite Z.mod_small by lia.
    apply big_SetBytes_PutUint32. lia.
Qed.

(** C6. The KeyID of a DSA private key is the KeyID of its embedded
    public key, and likewise for an RSA private key, whether the method
    is called on the key or through the [keyIDer] interface. *)
Theorem private_KeyID_is_public_KeyID :
  (forall dk : dsaKey, dsaKey_KeyID dk = dsaPublicKey_KeyID (dsaKey_publicKey dk))
  /\ (forall rk : rsaKey, rsaKey_KeyID rk = rsaPublicKey_KeyID (rsaKey_publicKey rk))
  /\ (forall dk : dsaKey, KeyID (key_dsa dk) = KeyID (key_dsaPublic (dsaKey_publicKey dk)))
  /\ (forall rk : rsaKey, KeyID (key_rsa rk) = KeyID (key_rsaPublic (rsaKey_publicKey rk))).
Proof. repeat split; intros k; reflexivity. Qed.

(** C10. [rsaKey.Decrypt] panics exactly on the inputs shorter than
    [kzHeaderLength] bytes, without calling OAEP; on every other input
    it returns what OAEP decryption of the bytes after the header
    returns. *)
Theorem rsaKey_Decrypt_header_slice (rk : rsaKey) (msg : bytes) :
  (length msg < kzHeaderLength -> rsaKey_Decrypt rk msg = ([], Panic))
  /\ (outcome (rsaKey_Decrypt rk msg) = Panic <-> length msg < kzHeaderLength)
  /\ (kzHeaderLength <= length msg ->
      let ciphertext := drop kzHeaderLength msg in
      rsaKey_Decrypt rk msg
      = ([ev_rsa_DecryptOAEP ciphertext],
         match rsa_DecryptOAEP (rsaKey_key rk) ciphertext with
         | (_, Some e) => Done (None, Some e)
         | (s, None) => Done (s, None)
         end)).
Proof.
  assert (kzHeaderLength <= length msg ->
          rsaKey_Decrypt rk msg
          = ([ev_rsa_DecryptOAEP (drop kzHeaderLength msg)],
             match rsa_DecryptOAEP (rsaKey_key rk) (drop kzHeaderLength msg) with
             | (_, Some e) => Done (None, Some e)
             | (s, None) => Done (s, None)
             end)) as Hok.
  { intros Hl. unfold rsaKey_Decrypt.
    rewrite slice_from_in_range by exact Hl. rewrite bind_ret, bind_call.
    destruct (rsa_DecryptOAEP _ _) as [s [e|]]; reflexivity. }
  assert (length msg < kzHeaderLength -> rsaKey_Decrypt rk msg = ([], Panic)) as Hshort.
  { intros Hs. unfold rsaKey_Decrypt, slice_from.
    rewrite slice_out_of_range by lia. reflexivity. }
  split; [exact Hshort |]. split; [| exact Hok].
  split.
  - intros Hp. destruct (Nat.lt_ge_cases (length msg) kzHeaderLength) as [Hs | Hl];
      [exact Hs |].
    rewrite Hok in Hp by exact Hl. cbn [outcome snd] in Hp.
    destruct (rsa_DecryptOAEP _ _) as [s [e|]]; discriminate.
  - intros Hs. rewrite Hshort by exact Hs. reflexivity.
Qed.

End Identity.
(** ** Loaders *)

Section Loaders.

Context `{Lib : Library} `{Pkg : Package}.

Lemma run_loader_range (l : loader) (r : KeyReader) (km : keyMeta) :
  run_loader l r km = range_Versions (loader_body l r) (Versions km) ∅.
Proof. destruct l; reflexivity. Qed.

(** The loop returns the map with a nil error, or a nil map with an
    error, or panics: never part of a map. *)
Lemma range_Versions_shape (body : keyVersion -> go (error + keyIDer))
    (versions : list keyVersion) (keys : gmap Z keyIDer) :
  (exists m, range_Versions body versions keys = Done (Some m, None)
             /\ Forall (fun kv => exists key, body kv = Done (inr key)) versions)
  \/ (exists e, range_Versions body versions keys = Done (None, Some e))
  \/ range_Versions body versions keys = Panic.
Proof.
  revert keys. induction versions as [|kv rest IH]; intros keys; simpl.
  - left. eexists. split; [reflexivity | constructor].
  - destruct (body kv) as [|[e | key]] eqn:E.
    + right. right. reflexivity.
    + right. left. eexists. reflexivity.
    + destruct (IH (<[VersionNumber kv := key]> keys))
        as [(m & Hm & Hall) | [(e & He) | Hp]].
      * left. exists m. split; [exact Hm |]. constructor; [eexists; exact E | exact Hall].
      * right. left. exists e. exact He.
      * right. right. exact Hp.
Qed.

Lemma range_Versions_first_failure (body : keyVersion -> go (error + keyIDer))
    (pre post : list keyVersion) (kv : keyVersion) (keys : gmap Z keyIDer) (e : error) :
  Forall (fun kv' => exists key, body kv' = Done (inr key)) pre ->
  body kv = Done (inl e) ->
  range_Versions body (pre ++ kv :: post) keys = Done (None, Some e).
Proof.
  intros Hpre Hkv. revert keys.
  induction Hpre as [|kv' pre [key Hkey] _ IH]; intros keys; simpl.
  - rewrite Hkv. reflexivity.
  - rewrite Hkey. apply IH.
Qed.

Lemma range_Versions_first_panic (body : keyVersion -> go (error + keyIDer))
    (pre post : list keyVersion) (kv : keyVersion) (keys : gmap Z keyIDer) :
  Forall (fun kv' => exists key, body kv' = Done (inr key)) pre ->
  body kv = Panic ->
  range_Versions body (pre ++ kv :: post) keys = Panic.
Proof.
  intros Hpre Hkv. revert keys.
  induction Hpre as [|kv' pre [key Hkey] _ IH]; intros keys; simpl.
  - rewrite Hkv. reflexivity.
  - rewrite Hkey. apply IH.
Qed.

(** A version on which the body returns an error: the loop returns no
    map, and returns an error when the body panics on no version before
    it. *)
Lemma range_Versions_any_failure (body : keyVersion -> go (error + keyIDer))
    (pre post : list keyVersion) (kv : keyVersion) (keys : gmap Z keyIDer) (e : error) :
  body kv = Done (inl e) ->
  (forall m e', range_Versions body (pre ++ kv :: post) keys <> Done (Some m, e'))
  /\ (Forall (fun kv' => body kv' <> Panic) pre ->
      exists e', range_Versions body (pre ++ kv :: post) keys = Done (None, Some e')).
Proof.
  intros Hkv. revert keys. induction pre as [|kv' pre IH]; intros keys; simpl.
  - rewrite Hkv. split; [discriminate | eexists; reflexivity].
  - destruct (body kv') as [|[e1 | key]] eqn:E.
    + split; [discriminate |]. intros Hp. apply Forall_cons in Hp as [Hp _].
      contradiction.
    + split; [discriminate | eexists; reflexivity].
    + destruct (IH (<[VersionNumber kv' := key]> keys)) as [Hm He].
      split; [exact Hm |]. intros Hp. apply Forall_cons in Hp as [_ Hp]. auto.
Qed.

Ltac case_checks :=
  repeat match goal with
    | |- context [isAcceptableSize ?k ?z] => destruct (isAcceptableSize k z) eqn:?
    | |- context [decodeWeb64String ?s] =>
        destruct (decodeWeb64String s) as [? [?|]] eqn:?
    end.

(** What one iteration does with a record the reader supplied, in the
    terms of the decoder's result and of the two checks. *)
Lemma loader_body_checks (l : loader) (r : KeyReader) (kv : keyVersion) (s : string) :
  r (VersionNumber kv) = (s, None) ->
  match loader_body l r kv with
  | Panic => record_is_null l s = true
  | Done (inr _) =>
      record_is_null l s = false
      /\ size_invalid l s = false /\ encoding_invalid l s = false
  | Done (inl e) =>
      record_is_null l s = false
      /\ ((e = ErrInvalidKeySize /\ size_invalid l s = true)
          \/ (e = ErrBase64Decoding /\ encoding_invalid l s = true))
  end.
Proof.
  intros Hr.
  unfold size_invalid, encoding_invalid, declared_sizes, encoded_fields, record_is_null.
  destruct l; cbn [loader_body decoded_record];
    unfold newAesKeys_body, newHmacKeys_body, newDsaPublicKeys_body, newDsaKeys_body,
      newRsaPublicKeys_body, newRsaKeys_body;
    rewrite Hr; cbn [failed];
    (destruct (json_Unmarshal s _) as [j|]; [| reflexivity]);
    cbn [mbind option_bind from_option existsb fst snd]; case_checks;
    cbn [failed existsb fst snd negb orb]; auto.
Qed.

Lemma version_valid_loads (l : loader) (r : KeyReader) (kv : keyVersion) :
  version_valid l r kv -> exists key, loader_body l r kv = Done (inr key).
Proof.
  intros (s & Hr & Hn & Hs & He).
  pose proof (loader_body_checks l r kv s Hr) as Hc.
  destruct (loader_body l r kv) as [|[e | key]]; [congruence | | eexists; reflexivity].
  destruct Hc as [_ [[_ Hc] | [_ Hc]]]; congruence.
Qed.

Lemma version_decoded_no_panic (l : loader) (r : KeyReader) (kv : keyVersion) :
  version_decoded l r kv -> loader_body l r kv <> Panic.
Proof.
  intros Hd Hp. destruct (r (VersionNumber kv)) as [s [e|]] eqn:Hr.
  - destruct l; cbn [loader_body] in Hp;
      unfold newAesKeys_body, newHmacKeys_body, newDsaPublicKeys_body, newDsaKeys_body,
        newRsaPublicKeys_body, newRsaKeys_body in Hp;
      rewrite Hr in Hp; discriminate Hp.
  - pose proof (loader_body_checks l r kv s Hr) as Hc. rewrite Hp in Hc.
    rewrite (Hd s Hr) in Hc. discriminate Hc.
Qed.

(** C5 (as the code has it). For each of the six loaders: when the
    record of some listed version fails size validation or base64
    decoding, the loader returns no map, neither the versions loaded so
    far nor any other; it returns a nil map and an error when no record
    listed before the failing one is the JSON value [null]; and when
    every version listed before it is valid, the error is
    [ErrInvalidKeySize] for a size that failed or [ErrBase64Decoding] for
    a field that failed to decode. *)
Theorem loaders_fail_fast (l : loader) (r : KeyReader) (km : keyMeta)
    (pre post : list keyVersion) (kv : keyVersion) (s : string) :
  Versions km = pre ++ kv :: post ->
  r (VersionNumber kv) = (s, None) ->
  size_invalid l s = true \/ encoding_invalid l s = true ->
  (forall m e, run_loader l r km <> Done (Some m, e))
  /\ (Forall (version_decoded l r) pre ->
      exists e, run_loader l r km = Done (None, Some e))
  /\ (Forall (version_valid l r) pre ->
      (run_loader l r km = Done (None, Some ErrInvalidKeySize) /\ size_invalid l s = true)
      \/ (run_loader l r km = Done (None, Some ErrBase64Decoding)
          /\ encoding_invalid l s = true)).
Proof.
  intros Hv Hr Hbad. rewrite run_loader_range, Hv.
  pose proof (loader_body_checks l r kv s Hr) as Hc.
  destruct (loader_body l r kv) as [|[e | key]] eqn:Hb.
  { unfold size_invalid, encoding_invalid, declared_sizes, encoded_fields,
      record_is_null in *.
    destruct (decoded_record l s); [discriminate Hc |].
    cbn in Hbad. destruct Hbad; discriminate. }
  2: { destruct Hc as (_ & Hs & He). destruct Hbad; congruence. }
  destruct (range_Versions_any_failure (loader_body l r) pre post kv ∅ e Hb)
    as [Hmap Herr].
  split; [exact Hmap |]. split.
  - intros Hpre. apply Herr.
    eapply Forall_impl; [exact Hpre |]. intros kv'. apply version_decoded_no_panic.
  - intros Hpre.
    assert (Forall (fun kv' => exists key, loader_body l r kv' = Done (inr key)) pre)
      as Hloads.
    { eapply Forall_impl; [exact Hpre |]. intros kv'. apply version_valid_loads. }
    rewrite (range_Versions_first_failure _ pre post kv ∅ e Hloads Hb).
    destruct Hc as [_ [[-> Hs] | [-> He]]]; [left | right]; split; auto.
Qed.

(** A loader that returns a map returns it with a nil error, after every
    listed version loaded. *)
Lemma loaders_all_or_nothing (l : loader) (r : KeyReader) (km : keyMeta) :
  (exists m, run_loader l r km = Done (Some m, None)
             /\ Forall (fun kv => exists key, loader_body l r kv = Done (inr key))
                       (Versions km))
  \/ (exists e, run_loader l r km = Done (None, Some e))
  \/ run_loader l r km = Panic.
Proof. rewrite run_loader_range. apply range_Versions_shape. Qed.

End Loaders.

(** ** Big-endian integers *)

Lemma big_SetBytes_snoc (b : bytes) (x : byte) :
  big_SetBytes (b ++ [x]) = (big_SetBytes b * 256 + byte_to_Z x)%Z.
Proof. unfold big_SetBytes. rewrite fold_left_app. reflexivity. Qed.



Lemma big_SetBytes_range (b : bytes) :
  (0 <= big_SetBytes b < 256 ^ Z.of_nat (length b))%Z.
Proof.
  induction b as [|x b IH] using rev_ind.
  - unfold big_SetBytes. simpl. lia.
  - rewrite big_SetBytes_snoc, length_app. simpl length.
    rewrite Nat2Z.inj_add, Z.pow_add_r by lia. change (256 ^ Z.of_nat 1)%Z with 256%Z.
    pose proof (byte_to_Z_range x). lia.
Qed.




(** ** Further properties: MAC key and key identifiers *)

Section MoreIdentity.

Context `{Lib : Library}.

Hypothesis sha1_Size : forall m, length (sha1_digest m) = 20.

Hypothesis hmac_Size : forall key m, length (hmac_sha1 key m) = hmacSigLength.

(** X1. [Sign] returns a 20-byte tag that [Verify] accepts for the same
    message, also when further bytes follow the tag; [Verify] rejects
    every other tag of 20 bytes for that message. *)
Theorem hmacKey_Verify_Sign (hm : hmacKey) (msg : bytes) :
  exists tag,
    outcome (hmacKey_Sign hm msg) = Done (Some tag, None)
    /\ length tag = 20
    /\ outcome (hmacKey_Verify hm msg tag) = Done (true, None)
    /\ (forall extra, outcome (hmacKey_Verify hm msg (tag ++ extra)) = Done (true, None))
    /\ (forall tag', length tag' = 20 -> tag' <> tag ->
          outcome (hmacKey_Verify hm msg tag') = Done (false, None)).
Proof using hmac_Size.
  pose proof (hmac_Size (hmacKey_key hm) msg) as Hs. unfold hmacSigLength in Hs.
  exists (hmac_sha1 (hmacKey_key hm) msg).
  rewrite hmacKey_Sign_eq. cbn [outcome snd].
  split; [reflexivity |]. split; [exact Hs |]. split; [| split].
  - rewrite hmacKey_Verify_eq by reflexivity. cbn [outcome snd].
    rewrite bool_decide_eq_true_2; reflexivity.
  - intros extra. rewrite hmacKey_Verify_long by (rewrite length_app; lia).
    cbn [outcome snd]. rewrite take_app_length.
    rewrite bool_decide_eq_true_2; reflexivity.
  - intros tag' Hl Hne. rewrite hmacKey_Verify_eq by lia. cbn [outcome snd].
    rewrite bool_decide_eq_false_2; [reflexivity |].
    intros E. apply Hne. symmetry. exact E.
Qed.

Lemma KeyID_of_input (k : keyIDer) : KeyID k = take 4 (sha1_digest (KeyID_input k)).
Proof.
  destruct k as [ak | hm | dk | dk | rk | rk];
    unfold KeyID, KeyIDer_keyIDer, KeyID, KeyIDer_aesKey, KeyIDer_hmacKey,
      KeyIDer_dsaPublicKey, KeyIDer_dsaKey, KeyIDer_rsaPublicKey, KeyIDer_rsaKey,
      aesKey_KeyID, hmacKey_KeyID, dsaKey_KeyID, dsaPublicKey_KeyID,
      rsaKey_KeyID, rsaPublicKey_KeyID, KeyID_input, length_prefixed;
    cbn [fold_left]; unfold binary_Write_uint32, hash_Write, hash_Sum, sha1_New;
    cbn [hash_digest hash_written]; rewrite !app_nil_l, <- ?app_assoc; reflexivity.
Qed.

(** X2. Whatever the key type behind the [keyIDer] interface, [KeyID]
    has exactly 4 bytes. *)
Theorem KeyID_length (k : keyIDer) : length (KeyID k) = 4.
Proof using sha1_Size.
  rewrite KeyID_of_input, length_take, sha1_Size. reflexivity.
Qed.


End MoreIdentity.

(** ** Further properties: symmetric encryption and decryption *)

Lemma io_ReadFull_enough (reader buf : bytes) :
  length buf <= length reader -> io_ReadFull reader buf = take (length buf) reader.
Proof.
  intros Hl. unfold io_ReadFull. rewrite take_app_le by exact Hl. reflexivity.
Qed.

Lemma io_ReadFull_short (reader : bytes) (n : nat) :
  length reader < n ->
  io_ReadFull reader (make_bytes n) = reader ++ make_bytes (n - length reader).
Proof.
  intros Hl. unfold io_ReadFull. rewrite length_make_bytes.
  unfold make_bytes. rewrite drop_replicate.
  rewrite take_ge; [reflexivity |]. rewrite length_app, length_replicate. lia.
Qed.

Lemma envelope_msg_app (msg tag : bytes) :
  length tag = hmacSigLength ->
  envelope_msg (msg ++ tag) = msg /\ envelope_tag (msg ++ tag) = tag.
Proof.
  intros Ht. unfold envelope_msg, envelope_tag. rewrite length_app, Ht.
  replace (length msg + hmacSigLength - hmacSigLength) with (length msg) by lia.
  split; [apply take_app_length | apply drop_app_length].
Qed.

Section MoreSymmetric.

Context `{Lib : Library} `{Pkg : Package}.

Hypothesis makeHeader_length : forall k, length (makeHeader k) = kzHeaderLength.

Hypothesis hmac_Size : forall key m, length (hmac_sha1 key m) = hmacSigLength.

Hypothesis pkcs5pad_length : forall p,
  length (pkcs5pad p aes_BlockSize)
  = length p + (aes_BlockSize - length p mod aes_BlockSize).

Lemma pkcs5pad_blocks (p : bytes) :
  length (pkcs5pad p aes_BlockSize) mod aes_BlockSize = 0.
Proof using pkcs5pad_length.
  rewrite pkcs5pad_length. unfold aes_BlockSize.
  pose proof (Nat.div_mod_eq (length p) 16) as Hd.
  pose proof (Nat.mod_upper_bound (length p) 16 ltac:(lia)) as Hm.
  replace (length p + (16 - length p mod 16)) with ((length p / 16 + 1) * 16) by lia.
  apply Nat.Div0.mod_mul.
Qed.

(** X4. With an AES key of 16, 24 or 32 bytes, [Encrypt] calls the
    cipher constructor, CBC encryption and the HMAC, in that order, and
    returns an envelope made of the header of the key, the IV read from
    the random source, the CBC encryption of the padded plaintext under
    that IV, and the HMAC of all of these under the bundled MAC key. *)
Theorem aesKey_Encrypt_envelope (ak : aesKey) (rand_Reader p : bytes) :
  aes_key_size_ok (aesKey_key ak) = true ->
  let key := aesKey_key ak in
  let hk := hmacKey_key (aesKey_hmacKey ak) in
  let padded := pkcs5pad p aes_BlockSize in
  let iv := io_ReadFull rand_Reader (make_bytes aes_BlockSize) in
  exists msg,
    aesKey_Encrypt ak rand_Reader p
    = ([ev_aes_NewCipher key; ev_cbc_Encrypt key iv padded;
        ev_hmac_Sum hk (envelope_msg msg)],
       Done (Some msg, None))
    /\ take kzHeaderLength msg = makeHeader (key_aes ak)
    /\ envelope_iv msg = iv
    /\ envelope_body msg = cbc_encrypt (length padded / aes_BlockSize) key iv padded
    /\ envelope_tag msg = hmac_sha1 hk (envelope_msg msg)
    /\ (aes_BlockSize <= length rand_Reader -> iv = take aes_BlockSize rand_Reader).
Proof using makeHeader_length hmac_Size pkcs5pad_length.
  intros Hk key hk padded iv.
  rewrite aesKey_Encrypt_eq by (auto using pkcs5pad_blocks). cbn zeta.
  fold key hk padded iv.
  set (ct := cbc_encrypt (length padded / aes_BlockSize) key iv padded).
  set (h := makeHeader (key_aes ak)).
  set (tag := hmac_sha1 hk (h ++ iv ++ ct)).
  assert (length iv = aes_BlockSize) as Hiv.
  { subst iv. rewrite length_io_ReadFull. apply length_make_bytes. }
  destruct (envelope_parts h iv ct tag (makeHeader_length _) Hiv (hmac_Size _ _))
    as (Hlen & Hmsg & Htag & Hiv' & Hbody).
  exists ((h ++ iv ++ ct) ++ tag).
  rewrite Hmsg, Htag, Hiv', Hbody.
  split; [reflexivity |]. split.
  { rewrite <- !app_assoc, <- (makeHeader_length (key_aes ak)). apply take_app_length. }
  split; [reflexivity |]. split; [reflexivity |]. split; [reflexivity |].
  intros Hr. subst iv. rewrite io_ReadFull_enough by (rewrite length_make_bytes; exact Hr).
  rewrite length_make_bytes. reflexivity.
Qed.

(** X5. [Encrypt] does not look at the result of reading the random
    source: when the source supplies fewer than 16 bytes (none at all,
    say), the IV is what it supplied followed by zero bytes, and
    [Encrypt] still returns an envelope. *)
Theorem aesKey_Encrypt_short_entropy (ak : aesKey) (rand_Reader p : bytes) :
  aes_key_size_ok (aesKey_key ak) = true ->
  length rand_Reader < 16 ->
  exists msg,
    outcome (aesKey_Encrypt ak rand_Reader p) = Done (Some msg, None)
    /\ envelope_iv msg = rand_Reader ++ make_bytes (16 - length rand_Reader).
Proof using makeHeader_length hmac_Size pkcs5pad_length.
  intros Hk Hr.
  rewrite aesKey_Encrypt_eq by (auto using pkcs5pad_blocks). cbn zeta.
  cbn [outcome snd]. eexists. split; [reflexivity |].
  assert (length (io_ReadFull rand_Reader (make_bytes aes_BlockSize)) = aes_BlockSize)
    as Hiv by (rewrite length_io_ReadFull; apply length_make_bytes).
  destruct (envelope_parts _ _
              (cbc_encrypt (length (pkcs5pad p aes_BlockSize) / aes_BlockSize)
                 (aesKey_key ak) (io_ReadFull rand_Reader (make_bytes aes_BlockSize))
                 (pkcs5pad p aes_BlockSize))
              _ (makeHeader_length (key_aes ak)) Hiv
              (hmac_Size (hmacKey_key (aesKey_hmacKey ak))
                 (makeHeader (key_aes ak)
                  ++ io_ReadFull rand_Reader (make_bytes aes_BlockSize)
                  ++ cbc_encrypt (length (pkcs5pad p aes_BlockSize) / aes_BlockSize)
                       (aesKey_key ak)
                       (io_ReadFull rand_Reader (make_bytes aes_BlockSize))
                       (pkcs5pad p aes_BlockSize))))
    as (_ & _ & _ & Hiv' & _).
  rewrite Hiv'. apply io_ReadFull_short. exact Hr.
Qed.

End MoreSymmetric.

Section KeySizeAndTags.

Context `{Lib : Library} `{Pkg : Package}.

Hypothesis hmac_Size : forall key m, length (hmac_sha1 key m) = hmacSigLength.

(** X6. An AES key that is not 16, 24 or 32 bytes long: [Encrypt]
    returns [aes.KeySizeError] having called only the cipher
    constructor; [Decrypt] returns it only for an input that passes the
    length check and the MAC check, after the HMAC. The HMAC has 20
    bytes, as HMAC-SHA1 does. *)
Theorem aesKey_wrong_key_size (ak : aesKey) :
  aes_key_size_ok (aesKey_key ak) = false ->
  let e := aes_KeySizeError (length (aesKey_key ak)) in
  (forall rand_Reader p,
     aesKey_Encrypt ak rand_Reader p
     = ([ev_aes_NewCipher (aesKey_key ak)], Done (None, Some e)))
  /\ (forall data,
        kzHeaderLength + 16 + 20 <= length data ->
        hmac_sha1 (hmacKey_key (aesKey_hmacKey ak)) (envelope_msg data)
        = envelope_tag data ->
        aesKey_Decrypt ak data
        = ([ev_hmac_Sum (hmacKey_key (aesKey_hmacKey ak)) (envelope_msg data);
            ev_aes_NewCipher (aesKey_key ak)],
           Done (None, Some e)))
  /\ (forall data r,
        outcome (aesKey_Decrypt ak data) = Done (r, Some e) ->
        kzHeaderLength + 16 + 20 <= length data
        /\ hmac_sha1 (hmacKey_key (aesKey_hmacKey ak)) (envelope_msg data)
           = envelope_tag data).
Proof using hmac_Size.
  intros Hk e. subst e. split; [| split].
  - intros rand_Reader p. unfold aesKey_Encrypt.
    rewrite aes_NewCipher_bad by exact Hk. rewrite bind_call. reflexivity.
  - intros data Hl Ht. apply aesKey_Decrypt_bad_key; assumption.
  - intros data r Ho.
    destruct (Nat.lt_ge_cases (length data)
                (kzHeaderLength + aes_BlockSize + hmacSigLength)) as [Hs | Hl].
    { rewrite aesKey_Decrypt_short in Ho by exact Hs. discriminate Ho. }
    split; [exact Hl |].
    destruct (decide (hmac_sha1 (hmacKey_key (aesKey_hmacKey ak)) (envelope_msg data)
                      = envelope_tag data)) as [Ht | Ht]; [exact Ht |].
    rewrite aesKey_Decrypt_bad_tag in Ho by first [assumption | apply hmac_Size].
    discriminate Ho.
Qed.

(** X8. A MAC-valid input whose ciphertext is not a whole number of
    16-byte blocks makes [Decrypt] panic in [CryptBlocks], after the HMAC
    and the cipher constructor: no error is returned for it. *)
Theorem aesKey_Decrypt_partial_block_panics (ak : aesKey) (data : bytes) :
  kzHeaderLength + 16 + 20 <= length data ->
  hmac_sha1 (hmacKey_key (aesKey_hmacKey ak)) (envelope_msg data) = envelope_tag data ->
  aes_key_size_ok (aesKey_key ak) = true ->
  (length data - kzHeaderLength - 16 - 20) mod 16 <> 0 ->
  aesKey_Decrypt ak data
  = ([ev_hmac_Sum (hmacKey_key (aesKey_hmacKey ak)) (envelope_msg data);
      ev_aes_NewCipher (aesKey_key ak)],
     Panic).
Proof using Type.
  intros Hl Ht Hk Hb. apply aesKey_Decrypt_partial_block; try assumption.
  rewrite length_envelope_body by exact Hl.
  unfold aes_BlockSize, hmacSigLength.
  replace (length data - kzHeaderLength - 20 - 16)
    with (length data - kzHeaderLength - 16 - 20) by lia.
  exact Hb.
Qed.

(** Replacing the 20-byte tag of an input that passes the MAC check
    by any other 20 bytes makes [Decrypt] return
    [(nil, ErrInvalidSignature)], with nothing decrypted. *)
Lemma aesKey_Decrypt_rejects_other_tag (ak : aesKey) (data tag' : bytes) :
  kzHeaderLength + 16 + 20 <= length data ->
  hmac_sha1 (hmacKey_key (aesKey_hmacKey ak)) (envelope_msg data) = envelope_tag data ->
  length tag' = 20 ->
  tag' <> envelope_tag data ->
  aesKey_Decrypt ak (envelope_msg data ++ tag')
  = ([ev_hmac_Sum (hmacKey_key (aesKey_hmacKey ak)) (envelope_msg data)],
     Done (None, Some ErrInvalidSignature)).
Proof using hmac_Size.
  intros Hl Ht Hlen Hne.
  destruct (envelope_msg_app (envelope_msg data) tag' Hlen) as [Hm Htag].
  rewrite <- Hm at 2.
  apply aesKey_Decrypt_bad_tag.
  - rewrite length_app, Hlen. unfold envelope_msg. rewrite length_take.
    unfold aes_BlockSize, hmacSigLength in *. lia.
  - apply hmac_Size.
  - rewrite Hm, Htag, Ht. intros E. apply Hne. symmetry. exact E.
Qed.

End KeySizeAndTags.

(** ** Further properties: loaders *)

Section MoreLoaders.

Context `{Lib : Library} `{Pkg : Package}.

(** A version number that is not listed keeps the entry it had. *)
Lemma range_Versions_other (body : keyVersion -> go (error + keyIDer))
    (versions : list keyVersion) (keys m : gmap Z keyIDer) (v : Z) :
  range_Versions body versions keys = Done (Some m, None) ->
  Forall (fun kv => VersionNumber kv <> v) versions ->
  m !! v = keys !! v.
Proof.
  revert keys. induction versions as [|kv rest IH]; intros keys Hr Hv; simpl in Hr.
  - congruence.
  - apply Forall_cons in Hv as [Hkv Hrest].
    destruct (body kv) as [|[e | key]]; [discriminate | discriminate |].
    rewrite (IH _ Hr Hrest). apply lookup_insert_ne. exact Hkv.
Qed.

(** The last listed version with a given number is the one found in the
    map. *)
Lemma range_Versions_last (body : keyVersion -> go (error + keyIDer))
    (pre post : list keyVersion) (kv : keyVersion) (keys m : gmap Z keyIDer) :
  range_Versions body (pre ++ kv :: post) keys = Done (Some m, None) ->
  Forall (fun kv' => VersionNumber kv' <> VersionNumber kv) post ->
  exists key, body kv = Done (inr key) /\ m !! VersionNumber kv = Some key.
Proof.
  revert keys. induction pre as [|kv' pre IH]; intros keys Hr Hpost; simpl in Hr.
  - destruct (body kv) as [|[e | key]]; [discriminate | discriminate |].
    exists key. split; [reflexivity |].
    rewrite (range_Versions_other _ _ _ _ _ Hr Hpost). apply lookup_insert_eq.
  - destruct (body kv') as [|[e | key']]; [discriminate | discriminate |]. exact (IH _ Hr Hpost).
Qed.

(** Every entry of the map was there before or was built from a listed
    version with that number. *)
Lemma range_Versions_origin (body : keyVersion -> go (error + keyIDer))
    (versions : list keyVersion) (keys m : gmap Z keyIDer) (v : Z) (key : keyIDer) :
  range_Versions body versions keys = Done (Some m, None) ->
  m !! v = Some key ->
  keys !! v = Some key
  \/ exists kv, kv ∈ versions /\ VersionNumber kv = v /\ body kv = Done (inr key).
Proof.
  revert keys. induction versions as [|kv rest IH]; intros keys Hr Hm; simpl in Hr.
  - left. congruence.
  - destruct (body kv) as [|[e | key']] eqn:Hb; [discriminate | discriminate |].
    destruct (IH _ Hr Hm) as [Hk | (kv' & Hin & Hv & Hkey)].
    + destruct (decide (VersionNumber kv = v)) as [Heq | Hne].
      * right. exists kv. rewrite Heq, lookup_insert_eq in Hk.
        split; [apply elem_of_cons; left; reflexivity |]. split; [exact Heq |].
        congruence.
      * left. rewrite lookup_insert_ne in Hk by exact Hne. exact Hk.
    + right. exists kv'. split; [apply elem_of_cons; right; exact Hin |]. auto.
Qed.

Ltac split_checks :=
  repeat match goal with
    | |- context [isAcceptableSize ?k ?z] => destruct (isAcceptableSize k z) eqn:?
    | |- context [decodeWeb64String ?s] =>
        destruct (decodeWeb64String s) as [? [?|]] eqn:?
    end.

Lemma loader_body_key_ok (l : loader) (r : KeyReader) (kv : keyVersion) (key : keyIDer) :
  loader_body l r kv = Done (inr key) -> loaded_key_ok l key.
Proof.
  destruct l; cbn [loader_body];
    unfold newAesKeys_body, newHmacKeys_body, newDsaPublicKeys_body, newDsaKeys_body,
      newRsaPublicKeys_body, newRsaKeys_body;
    destruct (r (VersionNumber kv)) as [s [e|]]; cbn [failed]; try discriminate;
    (destruct (json_Unmarshal s _) as [j|]; [| discriminate]);
    split_checks; cbn [failed negb orb]; try discriminate;
    intros [= <-]; cbn; auto.
Qed.

Lemma loader_body_reader_error (l : loader) (r : KeyReader) (kv : keyVersion)
    (s : string) (e : error) :
  r (VersionNumber kv) = (s, Some e) ->
  loader_body l r kv
  = Done (inl (match l with load_aes => ErrBase64Decoding | _ => e end)).
Proof.
  intros Hr. destruct l; cbn [loader_body];
    unfold newAesKeys_body, newHmacKeys_body, newDsaPublicKeys_body, newDsaKeys_body,
      newRsaPublicKeys_body, newRsaKeys_body;
    rewrite Hr; reflexivity.
Qed.

Lemma last_with_number (versions : list keyVersion) (v : Z) :
  (exists kv, kv ∈ versions /\ VersionNumber kv = v) ->
  exists pre kv post,
    versions = pre ++ kv :: post /\ VersionNumber kv = v
    /\ Forall (fun kv' => VersionNumber kv' <> VersionNumber kv) post.
Proof.
  induction versions as [|x versions IH] using rev_ind; intros (kv & Hin & Hv).
  - apply elem_of_nil in Hin. contradiction.
  - destruct (decide (VersionNumber x = v)) as [Hx | Hx].
    + exists versions, x, []. split; [reflexivity |]. split; [exact Hx | constructor].
    + apply elem_of_app in Hin as [Hin | Hin].
      * destruct IH as (pre & kv' & post & -> & Hv' & Hpost); [eauto |].
        exists pre, kv', (post ++ [x]). split; [rewrite <- app_assoc; reflexivity |].
        split; [exact Hv' |]. apply Forall_app. split; [exact Hpost |].
        constructor; [congruence | constructor].
      * apply list_elem_of_singleton in Hin. subst kv. contradiction.
Qed.

Lemma range_Versions_all_load (body : keyVersion -> go (error + keyIDer))
    (versions : list keyVersion) (keys : gmap Z keyIDer) :
  Forall (fun kv => exists key, body kv = Done (inr key)) versions ->
  exists m, range_Versions body versions keys = Done (Some m, None).
Proof.
  intros Hloads. revert keys.
  induction Hloads as [|kv rest [key Hkey] _ IH]; intros keys; simpl.
  - eexists. reflexivity.
  - rewrite Hkey. apply IH.
Qed.

(** X9. When every listed version is valid, a loader returns a map with
    a nil error; the map has an entry exactly for the listed version
    numbers, and where a number is listed more than once the entry is
    the key built from its last record. *)
Theorem loaders_load_all (l : loader) (r : KeyReader) (km : keyMeta) :
  Forall (version_valid l r) (Versions km) ->
  exists m,
    run_loader l r km = Done (Some m, None)
    /\ (forall v, is_Some (m !! v)
                  <-> exists kv, kv ∈ Versions km /\ VersionNumber kv = v)
    /\ (forall pre kv post,
          Versions km = pre ++ kv :: post ->
          Forall (fun kv' => VersionNumber kv' <> VersionNumber kv) post ->
          exists key,
            loader_body l r kv = Done (inr key) /\ m !! VersionNumber kv = Some key).
Proof.
  intros Hvalid. rewrite run_loader_range.
  destruct (range_Versions_all_load (loader_body l r) (Versions km) ∅) as [m Hm].
  { eapply Forall_impl; [exact Hvalid |]. intros kv. apply version_valid_loads. }
  exists m. split; [exact Hm |]. split.
  - intros v. split.
    + intros [key Hkey].
      destruct (range_Versions_origin _ _ _ _ _ _ Hm Hkey) as [He | (kv & Hin & Hv & _)].
      * rewrite lookup_empty in He. discriminate.
      * exists kv. auto.
    + intros Hex.
      destruct (last_with_number _ _ Hex) as (pre & kv & post & Hv & Hn & Hpost).
      rewrite Hv in Hm.
      destruct (range_Versions_last _ _ _ _ _ _ Hm Hpost) as (key & _ & Hkey).
      rewrite Hn in Hkey. eauto.
  - intros pre kv post Hv Hpost. rewrite Hv in Hm.
    exact (range_Versions_last _ _ _ _ _ _ Hm Hpost).
Qed.

(** X10. When the reader fails on a version and every version listed
    before it is valid, [newAesKeys] returns [ErrBase64Decoding] in place
    of the reader's error, and the other five loaders return the reader's
    error itself; the map is nil in both cases. *)
Theorem loaders_reader_error (l : loader) (r : KeyReader) (km : keyMeta)
    (pre post : list keyVersion) (kv : keyVersion) (s : string) (e : error) :
  Versions km = pre ++ kv :: post ->
  Forall (version_valid l r) pre ->
  r (VersionNumber kv) = (s, Some e) ->
  run_loader l r km
  = Done (None, Some (match l with load_aes => ErrBase64Decoding | _ => e end)).
Proof.
  intros Hv Hpre Hr. rewrite run_loader_range, Hv.
  apply range_Versions_first_failure.
  - eapply Forall_impl; [exact Hpre |]. intros kv'. apply version_valid_loads.
  - apply (loader_body_reader_error l r kv s e Hr).
Qed.

(** X11. Every key in a map a loader returns is of the loader's own key
    type; a DSA or RSA private key carries the same public material in
    its private half and in its embedded public key, and an RSA private
    key has exactly two primes. *)
Theorem loaders_keys_well_formed (l : loader) (r : KeyReader) (km : keyMeta)
    (m : gmap Z keyIDer) (v : Z) (key : keyIDer) :
  run_loader l r km = Done (Some m, None) ->
  m !! v = Some key ->
  loaded_key_ok l key.
Proof.
  rewrite run_loader_range. intros Hm Hkey.
  destruct (range_Versions_origin _ _ _ _ _ _ Hm Hkey) as [He | (kv & _ & _ & Hb)].
  - rewrite lookup_empty in He. discriminate.
  - exact (loader_body_key_ok l r kv key Hb).
Qed.

(** X19. When the record of a listed version is the JSON value [null],
    which leaves the loader with a nil pointer, and every version listed
    before it is valid, each of the six loaders panics on reading the
    record's size: it returns neither a map nor an error. *)
Theorem loaders_null_record_panics (l : loader) (r : KeyReader) (km : keyMeta)
    (pre post : list keyVersion) (kv : keyVersion) (s : string) :
  Versions km = pre ++ kv :: post ->
  Forall (version_valid l r) pre ->
  r (VersionNumber kv) = (s, None) ->
  record_is_null l s = true ->
  run_loader l r km = Panic.
Proof.
  intros Hv Hpre Hr Hn. rewrite run_loader_range, Hv.
  apply range_Versions_first_panic.
  - eapply Forall_impl; [exact Hpre |]. intros kv'. apply version_valid_loads.
  - pose proof (loader_body_checks l r kv s Hr) as Hc.
    destruct (loader_body l r kv) as [|[e | key]]; [reflexivity | |].
    + destruct Hc as [Hc _]. congruence.
    + destruct Hc as [Hc _]. congruence.
Qed.

End MoreLoaders.

(** ** Further properties: RSA and DSA *)

Section Asymmetric.

Context `{Lib : Library} `{Pkg : Package} `{Asym : Asymmetric}.

Hypothesis makeHeader_length : forall k, length (makeHeader k) = kzHeaderLength.

(** What the primitives are relied on for, on well-formed keys:
    decrypting with a private key what was encrypted for its public half
    gives the message back, a signature made with a private key verifies
    against its public half, and decoding an encoded signature gives it
    back, with the bytes that follow it left over. *)
Hypothesis OAEP_inverse : forall rand priv m c,
  rsa_key_valid priv = true ->
  rsa_EncryptOAEP rand (rsa_PublicKey_of priv) m = (Some c, None) ->
  rsa_DecryptOAEP priv c = (Some m, None).

Hypothesis PKCS1v15_verifies : forall rand priv hashed s,
  rsa_key_valid priv = true ->
  rsa_SignPKCS1v15 rand priv hashed = (Some s, None) ->
  rsa_VerifyPKCS1v15 (rsa_PublicKey_of priv) hashed s = None.

Hypothesis DSA_verifies : forall rand priv hash r s,
  dsa_key_valid priv = true ->
  dsa_Sign rand priv hash = (r, s, None) ->
  dsa_Verify (dsa_PublicKey_of priv) hash r s = true.

Hypothesis asn1_rest : forall sig b rest z,
  asn1_Marshal sig = (Some b, None) -> asn1_Unmarshal (b ++ rest) z = (rest, sig, None).

Lemma asn1_inverse (sig : dsaSignature) (b : bytes) (z : dsaSignature) :
  asn1_Marshal sig = (Some b, None) -> asn1_Unmarshal b z = ([], sig, None).
Proof using asn1_rest.
  intros Hm. rewrite <- (app_nil_r b) at 1. apply asn1_rest. exact Hm.
Qed.

(** X12. For a well-formed RSA private key whose two halves hold the
    same public key: when OAEP encryption succeeds, [Encrypt] returns the
    header of the public key followed by the OAEP ciphertext, and
    [Decrypt] of that returns the message; when OAEP encryption fails,
    [Encrypt] returns its error. *)
Theorem rsaKey_Decrypt_Encrypt (rk : rsaKey) (rand_Reader msg : bytes) :
  rsa_key_valid (rsaKey_key rk) = true ->
  rsa_PublicKey_of (rsaKey_key rk) = rsaPublicKey_key (rsaKey_publicKey rk) ->
  let pub := rsaPublicKey_key (rsaKey_publicKey rk) in
  (forall s,
     rsa_EncryptOAEP rand_Reader pub msg = (Some s, None) ->
     let c := makeHeader (key_rsaPublic (rsaKey_publicKey rk)) ++ s in
     rsaKey_Encrypt rk rand_Reader msg = (Some c, None)
     /\ outcome (rsaKey_Decrypt rk c) = Done (Some msg, None))
  /\ (forall s e,
        rsa_EncryptOAEP rand_Reader pub msg = (s, Some e) ->
        rsaKey_Encrypt rk rand_Reader msg = (None, Some e)).
Proof using makeHeader_length OAEP_inverse.
  intros Hvalid Hpub pub. subst pub. split.
  - intros s Hs. cbn zeta.
    unfold rsaKey_Encrypt, rsaPublicKey_Encrypt. rewrite Hs. cbn [bytes_of default].
    split; [reflexivity |].
    assert (drop kzHeaderLength (makeHeader (key_rsaPublic (rsaKey_publicKey rk)) ++ s)
            = s) as Hdrop.
    { rewrite <- (makeHeader_length (key_rsaPublic (rsaKey_publicKey rk))).
      apply drop_app_length. }
    unfold rsaKey_Decrypt.
    rewrite slice_from_in_range by (rewrite length_app, makeHeader_length; lia).
    rewrite bind_ret, bind_call, Hdrop.
    rewrite <- Hpub in Hs. rewrite (OAEP_inverse _ _ _ _ Hvalid Hs). reflexivity.
  - intros s e Hs. unfold rsaKey_Encrypt, rsaPublicKey_Encrypt. rewrite Hs. reflexivity.
Qed.

(** X13. [rsaKey.Decrypt] never reads the header: two inputs that differ
    only in their first [kzHeaderLength] bytes are decrypted alike. *)
Theorem rsaKey_Decrypt_ignores_header (rk : rsaKey) (h1 h2 c : bytes) :
  length h1 = kzHeaderLength -> length h2 = kzHeaderLength ->
  rsaKey_Decrypt rk (h1 ++ c) = rsaKey_Decrypt rk (h2 ++ c).
Proof.
  intros H1 H2. unfold rsaKey_Decrypt.
  rewrite !slice_from_in_range by (rewrite length_app; lia).
  assert (drop kzHeaderLength (h1 ++ c) = c) as ->
    by (rewrite <- H1; apply drop_app_length).
  assert (drop kzHeaderLength (h2 ++ c) = c) as ->
    by (rewrite <- H2; apply drop_app_length).
  reflexivity.
Qed.

(** X14. For a well-formed RSA private key whose two halves hold the
    same public key, a signature [Sign] returns for a message is accepted
    by [Verify] for that message; and [Verify] never returns an error,
    for any message and signature. *)
Theorem rsaKey_Verify_Sign (rk : rsaKey) (rand_Reader msg : bytes) :
  rsa_key_valid (rsaKey_key rk) = true ->
  rsa_PublicKey_of (rsaKey_key rk) = rsaPublicKey_key (rsaKey_publicKey rk) ->
  (forall s, rsaKey_Sign rk rand_Reader msg = (Some s, None) ->
             rsaKey_Verify rk msg s = (true, None))
  /\ (forall sig, snd (rsaKey_Verify rk msg sig) = None).
Proof using PKCS1v15_verifies.
  intros Hvalid Hpub. split; [| reflexivity].
  intros s Hs. unfold rsaKey_Sign in Hs.
  destruct (rsa_SignPKCS1v15 _ _ _) as [s' err] eqn:E. injection Hs as -> ->.
  unfold rsaKey_Verify, rsaPublicKey_Verify.
  rewrite <- Hpub, (PKCS1v15_verifies _ _ _ _ Hvalid E). reflexivity.
Qed.

(** X15. For a well-formed DSA private key whose two halves hold the
    same public key, a signature [Sign] returns for a message is accepted
    by [Verify] for that message. *)
Theorem dsaKey_Verify_Sign (dk : dsaKey) (rand_Reader msg b : bytes) :
  dsa_key_valid (dsaKey_key dk) = true ->
  dsa_PublicKey_of (dsaKey_key dk) = dsaPublicKey_key (dsaKey_publicKey dk) ->
  dsaKey_Sign dk rand_Reader msg = (Some b, None) ->
  dsaKey_Verify dk msg b = (true, None).
Proof using DSA_verifies asn1_rest.
  intros Hvalid Hpub Hs. unfold dsaKey_Sign in Hs.
  destruct (dsa_Sign _ _ _) as [[r s] [e|]] eqn:Ed; [discriminate |].
  destruct (asn1_Marshal _) as [b' [e|]] eqn:Em; [discriminate |].
  injection Hs as ->.
  unfold dsaKey_Verify, dsaPublicKey_Verify.
  rewrite (asn1_inverse _ _ new_dsaSignature Em). cbn [sig_R sig_S].
  rewrite <- Hpub, (DSA_verifies _ _ _ _ _ Hvalid Ed). reflexivity.
Qed.

(** X16. [dsaPublicKey.Verify] drops the bytes [asn1.Unmarshal] leaves
    over: bytes appended to an encoded signature change nothing in what
    [Verify] returns, on a public key and on a private key. *)
Theorem dsaKey_Verify_trailing_bytes (sig : dsaSignature) (b junk msg : bytes) :
  asn1_Marshal sig = (Some b, None) ->
  (forall dk : dsaPublicKey,
     dsaPublicKey_Verify dk msg (b ++ junk) = dsaPublicKey_Verify dk msg b)
  /\ (forall dk : dsaKey, dsaKey_Verify dk msg (b ++ junk) = dsaKey_Verify dk msg b).
Proof using asn1_rest.
  intros Hm.
  assert (forall dk : dsaPublicKey,
            dsaPublicKey_Verify dk msg (b ++ junk) = dsaPublicKey_Verify dk msg b) as Hpub.
  { intros dk. unfold dsaPublicKey_Verify.
    rewrite (asn1_rest _ _ junk new_dsaSignature Hm).
    rewrite (asn1_inverse _ _ new_dsaSignature Hm). reflexivity. }
  split; [exact Hpub |]. intros dk. apply Hpub.
Qed.

(** [dsaPublicKey.Verify] by the cases of decoding the signature. *)
Lemma dsaPublicKey_Verify_decoding (dk : dsaPublicKey) (msg sig : bytes) :
  let '(rest, rs, err) := asn1_Unmarshal sig new_dsaSignature in
  match err with
  | Some e => dsaPublicKey_Verify dk msg sig = (false, Some e)
  | None =>
      dsaPublicKey_Verify dk msg sig
      = (dsa_Verify (dsaPublicKey_key dk) (sha1_digest msg) (sig_R rs) (sig_S rs), None)
  end.
Proof.
  unfold dsaPublicKey_Verify.
  destruct (asn1_Unmarshal sig new_dsaSignature) as [[rest rs] [e|]]; reflexivity.
Qed.

End Asymmetric.

(** ** Further properties: packed keys and key generation *)


Section Packing.

Context `{Pkg : Package} `{Cod : Codec}.

Hypothesis unpack_pack : forall a b : bytes,
  (Z.of_nat (length a) < 2 ^ 32)%Z -> (Z.of_nat (length b) < 2 ^ 32)%Z ->
  lenPrefixUnpack (lenPrefixPack [a; b]) = Done [a; b].

(** X17. Importing the packed form of a symmetric key gives the key back
    when the bit sizes of both of its keys are acceptable, and
    [ErrInvalidKeySize] otherwise. *)
Theorem newAesFromPackedKeys_packedKeys (ak : aesKey) :
  (Z.of_nat (length (aesKey_key ak)) < 2 ^ 32)%Z ->
  (Z.of_nat (length (hmacKey_key (aesKey_hmacKey ak))) < 2 ^ 32)%Z ->
  newAesFromPackedKeys (aesKey_packedKeys ak)
  = mret (if isAcceptableSize ktAES (bit_size (aesKey_key ak))
             && isAcceptableSize ktHMAC_SHA1 (bit_size (hmacKey_key (aesKey_hmacKey ak)))
          then (Some ak, None)
          else (None, Some ErrInvalidKeySize)).
Proof using unpack_pack.
  intros Ha Hb. unfold newAesFromPackedKeys, aesKey_packedKeys.
  rewrite unpack_pack by assumption. unfold lift.
  change (([], Done [aesKey_key ak; hmacKey_key (aesKey_hmacKey ak)]) : M (list bytes))
    with (mret (M := M) [aesKey_key ak; hmacKey_key (aesKey_hmacKey ak)]).
  rewrite bind_ret. destruct ak as [key [hk]]. cbn [aesKey_key aesKey_hmacKey hmacKey_key].
  destruct (isAcceptableSize ktAES _), (isAcceptableSize ktHMAC_SHA1 _); reflexivity.
Qed.

(** [newAesFromPackedKeys] returns a key exactly when the input
    unpacks into two segments whose bit sizes are acceptable for an AES
    key and a MAC key, and the key is made of these two segments; it
    panics only where unpacking does, and in every other case returns
    [ErrInvalidKeySize]. *)
Lemma newAesFromPackedKeys_accepts (b : bytes) :
  (forall ak,
     outcome (newAesFromPackedKeys b) = Done (Some ak, None)
     <-> lenPrefixUnpack b = Done [aesKey_key ak; hmacKey_key (aesKey_hmacKey ak)]
         /\ isAcceptableSize ktAES (bit_size (aesKey_key ak)) = true
         /\ isAcceptableSize ktHMAC_SHA1 (bit_size (hmacKey_key (aesKey_hmacKey ak)))
            = true)
  /\ (outcome (newAesFromPackedKeys b) = Panic <-> lenPrefixUnpack b = Panic)
  /\ (forall r e, outcome (newAesFromPackedKeys b) = Done (r, Some e) ->
                  r = None /\ e = ErrInvalidKeySize).
Proof.
  unfold newAesFromPackedKeys, lift.
  destruct (lenPrefixUnpack b) as [|keys].
  { rewrite bind_Panic. cbn [outcome snd].
    split; [| split]; [| tauto |]; [intros ak; split | intros r e];
      [discriminate | intros [? _]; discriminate | discriminate]. }
  change (([], Done keys) : M (list bytes)) with (mret (M := M) keys).
  rewrite bind_ret.
  split; [| split].
  - intros [key [hk]]. cbn [aesKey_key aesKey_hmacKey hmacKey_key].
    destruct keys as [|k0 [|k1 [|k2 keys]]]; cbn [outcome snd mret M_ret];
      try (split; [discriminate | intros [[=] _]]).
    destruct (isAcceptableSize ktAES (bit_size k0)) eqn:E0,
             (isAcceptableSize ktHMAC_SHA1 (bit_size k1)) eqn:E1;
      cbn [negb orb outcome snd mret M_ret]; split;
      try discriminate;
      try (intros [[= <- <-] [H0 H1]]; congruence).
    intros [= <- <-]. auto.
  - destruct keys as [|k0 [|k1 [|k2 keys]]]; cbn [outcome snd mret M_ret];
      try (split; discriminate).
    destruct (negb _ || negb _); split; discriminate.
  - intros r e.
    destruct keys as [|k0 [|k1 [|k2 keys]]]; cbn [outcome snd mret M_ret];
      try (intros [= <- <-]; auto).
    destruct (negb _ || negb _); cbn [outcome snd mret M_ret];
      [intros [= <- <-]; auto | discriminate].
Qed.


End Packing.

(** ** The further instance meets what is asked of its parameters *)

Lemma sample_OAEP_inverse (rand : bytes) (priv : rsa_PrivateKey) (m c : bytes) :
  rsa_key_valid priv = true ->
  SampleRest.encryptOAEP rand (rsa_PublicKey_of priv) m = (Some c, None) ->
  rsa_DecryptOAEP (Library := Sample.lib) priv c = (Some m, None).
Proof.
  intros _. unfold SampleRest.encryptOAEP. destruct (_ <=? _)%Z; [| discriminate].
  intros [= <-]. reflexivity.
Qed.

Lemma sample_PKCS1v15_verifies (rand : bytes) (priv : rsa_PrivateKey) (hashed s : bytes) :
  rsa_key_valid priv = true ->
  rsa_SignPKCS1v15 (Asymmetric := SampleRest.asym) rand priv hashed = (Some s, None) ->
  rsa_VerifyPKCS1v15 (Asymmetric := SampleRest.asym) (rsa_PublicKey_of priv) hashed s
  = None.
Proof.
  intros _. cbn. intros [= <-]. rewrite bool_decide_eq_true_2; reflexivity.
Qed.

Lemma sample_DSA_verifies (rand : bytes) (priv : dsa_PrivateKey) (hash : bytes) (r s : Z) :
  dsa_key_valid priv = true ->
  dsa_Sign (Asymmetric := SampleRest.asym) rand priv hash = (r, s, None) ->
  dsa_Verify (Asymmetric := SampleRest.asym) (dsa_PublicKey_of priv) hash r s = true.
Proof.
  intros _. cbn. intros [= <- <-]. rewrite Z.eqb_refl. reflexivity.
Qed.

Lemma sample_asn1_rest (sig : dsaSignature) (b rest : bytes) (z : dsaSignature) :
  asn1_Marshal (Asymmetric := SampleRest.asym) sig = (Some b, None) ->
  asn1_Unmarshal (Asymmetric := SampleRest.asym) (b ++ rest) z = (rest, sig, None).
Proof.
  destruct sig as [R S]. cbn. unfold SampleRest.is_byte.
  destruct ((0 <=? R)%Z && (R <? 256)%Z) eqn:ER; [| discriminate].
  destruct ((0 <=? S)%Z && (S <? 256)%Z) eqn:ES; [| discriminate].
  cbn. intros [= <-]. cbn.
  rewrite !byte_to_Z_uint8, !Z.mod_small by lia. reflexivity.
Qed.

Lemma sample_unpack_loop_nil (n : nat) : SampleRest.unpack_loop n [] = Done [].
Proof. destruct n; reflexivity. Qed.

Lemma sample_unpack_loop_segment (n : nat) (a rest : bytes) :
  (Z.of_nat (length a) < 2 ^ 32)%Z ->
  SampleRest.unpack_loop (S n)
    (BigEndian_PutUint32 (uint32 (Z.of_nat (length a))) ++ a ++ rest)
  = match SampleRest.unpack_loop n rest with
    | Panic => Panic
    | Done segments => Done (a :: segments)
    end.
Proof.
  intros Ha. cbn [SampleRest.unpack_loop].
  set (be4 := BigEndian_PutUint32 (uint32 (Z.of_nat (length a)))).
  assert (length be4 = 4) as H4 by reflexivity.
  rewrite !length_app, H4.
  rewrite (proj2 (Nat.eqb_neq _ 0)) by lia.
  rewrite (proj2 (Nat.ltb_ge _ 4)) by lia.
  assert (take 4 (be4 ++ a ++ rest) = be4) as -> by (rewrite <- H4; apply take_app_length).
  assert (Z.to_nat (big_SetBytes be4) = length a) as ->.
  { subst be4. unfold uint32. rewrite Z.mod_small by lia.
    rewrite big_SetBytes_PutUint32 by lia. apply Nat2Z.id. }
  rewrite (proj2 (Nat.ltb_ge _ _)) by lia.
  assert (drop (4 + length a) (be4 ++ a ++ rest) = rest) as ->.
  { rewrite <- drop_drop, <- H4, drop_app_length. apply drop_app_length. }
  assert (take (length a) (drop 4 (be4 ++ a ++ rest)) = a) as ->.
  { rewrite <- H4, drop_app_length. apply take_app_length. }
  reflexivity.
Qed.

Lemma sample_unpack_pack (a b : bytes) :
  (Z.of_nat (length a) < 2 ^ 32)%Z -> (Z.of_nat (length b) < 2 ^ 32)%Z ->
  SampleRest.unpack (SampleRest.pack [a; b]) = Done [a; b].
Proof.
  intros Ha Hb. unfold SampleRest.unpack, SampleRest.pack. cbn [map concat].
  rewrite app_nil_r, <- !app_assoc.
  rewrite (sample_unpack_loop_segment _ a _ Ha).
  rewrite length_app, length_PutUint32. cbn [Nat.add].
  rewrite <- (app_nil_r b) at 4.
  rewrite (sample_unpack_loop_segment _ b [] Hb).
  rewrite sample_unpack_loop_nil. reflexivity.
Qed.

(** The sample keys are well formed. *)
Lemma sample_rsa_key_valid : rsa_key_valid (rsaKey_key Sample.rsa_key) = true.
Proof. vm_compute. reflexivity. Qed.

Lemma sample_dsa_key_valid : dsa_key_valid (dsaKey_key SampleRest.dsa_key) = true.
Proof. vm_compute. reflexivity. Qed.

(** ** The properties at the sample inputs *)

Import Sample.

(** The short-input property on a 9-byte input. *)
Lemma aesKey_Decrypt_short_input_witness :
  length (list_byte_of_string "too short") < kzHeaderLength + 16 + 20
  /\ aesKey_Decrypt key (list_byte_of_string "too short")
     = ([], Done (None, Some ErrShortCiphertext)).
Proof.
  assert (length (list_byte_of_string "too short") < kzHeaderLength + 16 + 20) as Hs.
  { vm_compute. lia. }
  split; [exact Hs |].
  exact (aesKey_Decrypt_short_input key (list_byte_of_string "too short") Hs).
Defined.

(** The order-of-checks property on the sample envelope with its first
    byte replaced: only the HMAC is called. *)
Lemma aesKey_Decrypt_verifies_first_witness :
  let data := Byte.x01 :: drop 1 unpadded_envelope in
  kzHeaderLength + 16 + 20 <= length data
  /\ aesKey_Decrypt key data
     = ([ev_hmac_Sum (hmacKey_key (aesKey_hmacKey key)) (envelope_msg data)],
        Done (None, Some ErrInvalidSignature)).
Proof.
  intros data.
  assert (kzHeaderLength + 16 + 20 <= length data) as Hl by (vm_compute; lia).
  split; [exact Hl |].
  apply (aesKey_Decrypt_verifies_first (Lib := lib) (Pkg := pkg)
           sample_keyed_digest_length key data Hl).
  vm_compute. discriminate.
Defined.

(** C2, as stated, fails: the sample envelope passes the length check and
    the MAC check, its decrypted block does not end in PKCS#5/7 padding,
    and [Decrypt] returns its first thirteen bytes with a nil error; and
    whatever [pkcs5unpad] is put in the package, [Decrypt] of this
    envelope returns no error. *)
Lemma aesKey_Decrypt_malformed_padding_accepted :
  padding_ok 16
    (cbc_decrypt 1 (aesKey_key key)
       (envelope_iv unpadded_envelope) (envelope_body unpadded_envelope)) = false
  /\ outcome (aesKey_Decrypt key unpadded_envelope)
     = Done (Some (list_byte_of_string "thirteen byte"), None)
  /\ (forall (unpad : bytes -> go bytes) (e : error),
        outcome (aesKey_Decrypt (Pkg := package unpad) key unpadded_envelope)
        <> Done (None, Some e)).
Proof.
  split; [vm_compute; reflexivity |].
  split; [vm_compute; reflexivity |].
  intros unpad e.
  rewrite (aesKey_Decrypt_whole_blocks (Pkg := package unpad) key unpadded_envelope);
    [| vm_compute; lia | vm_compute; reflexivity | reflexivity | reflexivity].
  cbn [outcome snd]. destruct (pkcs5unpad _); discriminate.
Qed.

(** C2 as the code has it, on the same envelope. *)
Lemma aesKey_Decrypt_returns_unpadded_witness :
  kzHeaderLength + 16 + 20 <= length unpadded_envelope
  /\ outcome (aesKey_Decrypt key unpadded_envelope)
     = match pkcs5unpad
               (cbc_decrypt (length (envelope_body unpadded_envelope) / 16)
                  (aesKey_key key)
                  (envelope_iv unpadded_envelope) (envelope_body unpadded_envelope)) with
       | Panic => Panic
       | Done plainBytes => Done (Some plainBytes, None)
       end.
Proof.
  assert (kzHeaderLength + 16 + 20 <= length unpadded_envelope) as Hl
    by (vm_compute; lia).
  split; [exact Hl |].
  apply (aesKey_Decrypt_returns_unpadded key unpadded_envelope Hl);
    vm_compute; reflexivity.
Defined.

(** The round trip on "hello world". *)
Lemma aesKey_Decrypt_Encrypt_witness :
  aes_key_size_ok (aesKey_key key) = true
  /\ exists msg,
       outcome (aesKey_Encrypt key entropy hello) = Done (Some msg, None)
       /\ outcome (aesKey_Decrypt key msg) = Done (Some hello, None).
Proof.
  split; [reflexivity |].
  exact (aesKey_Decrypt_Encrypt (Lib := lib) (Pkg := pkg)
           sample_header_length sample_keyed_digest_length
           sample_block_length sample_block_inverse
           sample_pad_length sample_unpad_pad key entropy hello eq_refl).
Defined.

(** The envelope of "hello world" under a 128-bit key has 57 bytes. *)
Lemma aesKey_Encrypt_length_witness :
  aes_key_size_ok (aesKey_key key) = true
  /\ exists msg,
       outcome (aesKey_Encrypt key entropy hello) = Done (Some msg, None)
       /\ length msg = 5 + 16 + 16 + 20.
Proof.
  split; [reflexivity |].
  destruct (aesKey_Encrypt_length (Lib := lib) (Pkg := pkg)
              sample_header_length sample_keyed_digest_length
              sample_block_length sample_pad_length key entropy hello eq_refl)
    as (msg & Hm & _ & Hhello).
  exists msg. split; [exact Hm |]. exact (Hhello eq_refl).
Defined.

(** C7, as stated, fails: on the first 19 bytes of the HMAC, a tag whose
    length is not 20, [Verify] panics instead of returning false; and on
    the HMAC followed by one more byte, a tag that is not the HMAC, it
    returns true. *)
Lemma hmacKey_Verify_wrong_length_tags :
  let sig := keyed_digest (hmacKey_key (aesKey_hmacKey key)) hello in
  length (take 19 sig) <> 20
  /\ outcome (hmacKey_Verify (aesKey_hmacKey key) hello (take 19 sig)) = Panic
  /\ sig ++ [Byte.x00] <> hmac_sha1 (hmacKey_key (aesKey_hmacKey key)) hello
  /\ outcome (hmacKey_Verify (aesKey_hmacKey key) hello (sig ++ [Byte.x00]))
     = Done (true, None).
Proof.
  cbv zeta. split; [vm_compute; discriminate |].
  split; [vm_compute; reflexivity |].
  split; [vm_compute; discriminate |].
  vm_compute. reflexivity.
Qed.

(** C7 as the code has it, on the HMAC itself, on the HMAC followed by
    one more byte, and on its first 19 bytes. *)
Lemma hmacKey_Verify_correct_witness :
  let sig := keyed_digest (hmacKey_key (aesKey_hmacKey key)) hello in
  outcome (hmacKey_Verify (aesKey_hmacKey key) hello sig) = Done (true, None)
  /\ outcome (hmacKey_Verify (aesKey_hmacKey key) hello (sig ++ [Byte.x00]))
     = Done (true, None)
  /\ outcome (hmacKey_Verify (aesKey_hmacKey key) hello (take 19 sig)) = Panic.
Proof.
  intros sig.
  destruct (hmacKey_Verify_correct (Lib := lib) sample_keyed_digest_length
              (aesKey_hmacKey key) hello sig) as (Heq & _ & _ & _).
  destruct (hmacKey_Verify_correct (Lib := lib) sample_keyed_digest_length
              (aesKey_hmacKey key) hello (sig ++ [Byte.x00])) as (_ & Hlong & _ & _).
  destruct (hmacKey_Verify_correct (Lib := lib) sample_keyed_digest_length
              (aesKey_hmacKey key) hello (take 19 sig)) as (_ & _ & Hshort & _).
  split; [| split].
  - destruct Heq as (ok & Ho & Hok); [reflexivity |].
    rewrite Ho. f_equal. f_equal. apply Hok. reflexivity.
  - destruct Hlong as (ok & Ho & Hok); [vm_compute; lia |].
    rewrite Ho. f_equal. f_equal. apply Hok. vm_compute. reflexivity.
  - apply Hshort. vm_compute. lia.
Defined.

(** The KeyID of the sample key. *)
Lemma aesKey_KeyID_spec_witness :
  KeyID key
  = take 4 (sha1_digest
              ([Byte.x00; Byte.x00; Byte.x00; Byte.x10]
               ++ aesKey_key key ++ hmacKey_key (aesKey_hmacKey key)))
  /\ length (KeyID key) = 4.
Proof.
  destruct (aesKey_KeyID_spec (Lib := lib) sample_digest_length key)
    as (Hid & Hlen & _).
  split; [exact Hid | exact Hlen].
Defined.

(** C5, as stated, fails: version 2 declares 100 bits, so its record
    fails size validation, but with the record [null] listed before it
    the loader panics and returns neither an error nor a nil map. *)
Lemma loaders_fail_fast_null_record :
  size_invalid load_aes (fst (reader 2%Z)) = true
  /\ run_loader load_aes reader (versions [5; 2]%Z) = Panic
  /\ (forall m e, run_loader load_aes reader (versions [5; 2]%Z) <> Done (m, Some e)).
Proof.
  split; [reflexivity |]. split; [reflexivity |]. intros m e. discriminate.
Qed.

(** C5 as the code has it: loading versions 1 and 2, where the record of
    version 2 declares 100 bits. *)
Lemma loaders_fail_fast_witness :
  size_invalid load_aes (fst (reader 2%Z)) = true
  /\ encoding_invalid load_aes (fst (reader 2%Z)) = false
  /\ run_loader load_aes reader (versions [1; 2]%Z) = Done (None, Some ErrInvalidKeySize).
Proof.
  assert (size_invalid load_aes (fst (reader 2%Z)) = true) as Hsize by reflexivity.
  split; [exact Hsize |]. split; [reflexivity |].
  destruct (loaders_fail_fast load_aes reader (versions [1; 2]%Z)
              [{| VersionNumber := 1%Z |}] [] {| VersionNumber := 2%Z |}
              (fst (reader 2%Z)) eq_refl eq_refl (or_introl Hsize)) as (_ & _ & Hkind).
  destruct Hkind as [[Hr _] | [_ He]].
  - constructor; [| constructor].
    exists (fst (reader 1%Z)). repeat split; reflexivity.
  - exact Hr.
  - discriminate He.
Defined.

(** ** The further properties at the sample inputs *)

Import SampleRest.

Lemma hmacKey_Verify_Sign_witness :
  exists tag,
    outcome (hmacKey_Sign (aesKey_hmacKey key) hello) = Done (Some tag, None)
    /\ outcome (hmacKey_Verify (aesKey_hmacKey key) hello tag) = Done (true, None)
    /\ outcome (hmacKey_Verify (aesKey_hmacKey key) hello (tag ++ hello))
       = Done (true, None).
Proof.
  destruct (hmacKey_Verify_Sign (Lib := lib) sample_keyed_digest_length
              (aesKey_hmacKey key) hello) as (tag & Hs & _ & Hv & Hx & _).
  exists tag. split; [exact Hs |]. split; [exact Hv | apply Hx].
Defined.

Lemma KeyID_length_witness : length (KeyID (key_rsa rsa_key)) = 4.
Proof. exact (KeyID_length (Lib := lib) sample_digest_length (key_rsa rsa_key)). Defined.

Lemma aesKey_Encrypt_envelope_witness :
  aes_key_size_ok (aesKey_key key) = true
  /\ exists msg,
       outcome (aesKey_Encrypt key entropy hello) = Done (Some msg, None)
       /\ take 5 msg = header (key_aes key)
       /\ envelope_iv msg = entropy.
Proof.
  split; [reflexivity |].
  destruct (aesKey_Encrypt_envelope (Lib := lib) (Pkg := pkg)
              sample_header_length sample_keyed_digest_length sample_pad_length
              key entropy hello eq_refl) as (msg & He & Hh & Hiv & _ & _ & Hr).
  exists msg. split; [rewrite He; reflexivity |]. split; [exact Hh |].
  rewrite Hiv. apply Hr. vm_compute. lia.
Defined.

Lemma aesKey_Encrypt_short_entropy_witness :
  length (@nil byte) < 16
  /\ exists msg,
       outcome (aesKey_Encrypt key [] hello) = Done (Some msg, None)
       /\ envelope_iv msg = make_bytes 16.
Proof.
  assert (length (@nil byte) < 16) as Hs by (simpl; lia).
  split; [exact Hs |].
  exact (aesKey_Encrypt_short_entropy (Lib := lib) (Pkg := pkg)
           sample_header_length sample_keyed_digest_length sample_pad_length
           key [] hello eq_refl Hs).
Defined.

Lemma aesKey_wrong_key_size_witness :
  aes_key_size_ok (aesKey_key short_key) = false
  /\ aesKey_Encrypt short_key entropy hello
     = ([ev_aes_NewCipher (aesKey_key short_key)],
        Done (None, Some (aes_KeySizeError 3))).
Proof.
  split; [reflexivity |].
  exact (proj1 (aesKey_wrong_key_size (Lib := lib) (Pkg := pkg)
                  sample_keyed_digest_length short_key eq_refl)
           entropy hello).
Defined.

Lemma aesKey_Decrypt_errors_witness :
  outcome (aesKey_Decrypt key hello) = Done (None, Some ErrShortCiphertext)
  /\ (ErrShortCiphertext = ErrShortCiphertext
      \/ ErrShortCiphertext = ErrInvalidSignature
      \/ ErrShortCiphertext = aes_KeySizeError (length (aesKey_key key))).
Proof.
  assert (outcome (aesKey_Decrypt key hello) = Done (None, Some ErrShortCiphertext))
    as Ho by reflexivity.
  split; [exact Ho |].
  exact (proj2 (aesKey_Decrypt_errors (Lib := lib) (Pkg := pkg) key hello None
                  ErrShortCiphertext Ho)).
Defined.

Lemma aesKey_Decrypt_partial_block_panics_witness :
  kzHeaderLength + 16 + 20 <= length ragged_envelope
  /\ (length ragged_envelope - kzHeaderLength - 16 - 20) mod 16 <> 0
  /\ outcome (aesKey_Decrypt key ragged_envelope) = Panic.
Proof.
  assert (kzHeaderLength + 16 + 20 <= length ragged_envelope) as Hl
    by (vm_compute; lia).
  assert ((length ragged_envelope - kzHeaderLength - 16 - 20) mod 16 <> 0) as Hb
    by (vm_compute; discriminate).
  split; [exact Hl |]. split; [exact Hb |].
  rewrite (aesKey_Decrypt_partial_block_panics (Lib := lib) (Pkg := pkg)
             key ragged_envelope Hl eq_refl eq_refl Hb).
  reflexivity.
Defined.

Lemma loaders_load_all_witness :
  exists m,
    run_loader load_aes reader (versions [1%Z]) = Done (Some m, None)
    /\ m !! 1%Z = Some (key_aes key).
Proof.
  destruct (loaders_load_all (Lib := lib) (Pkg := pkg) load_aes reader (versions [1%Z]))
    as (m & Hm & _ & Hlast).
  - constructor; [| constructor].
    exists (fst (reader 1%Z)). repeat split; reflexivity.
  - exists m. split; [exact Hm |].
    destruct (Hlast [] {| VersionNumber := 1%Z |} [] eq_refl ltac:(constructor))
      as (k & Hk & Hlook).
    change (m !! 1%Z = Some k) in Hlook.
    rewrite Hlook. f_equal.
    assert (loader_body (H := lib) (H0 := pkg) load_aes reader
              {| VersionNumber := 1%Z |} = Done (inr (key_aes key))) as Hk'
      by (vm_compute; reflexivity).
    rewrite Hk' in Hk. injection Hk as <-. reflexivity.
Defined.

Lemma loaders_reader_error_witness :
  reader 4%Z = (""%string, Some (OtherError "no such version"))
  /\ run_loader load_aes reader (versions [1; 4]%Z) = Done (None, Some ErrBase64Decoding)
  /\ run_loader load_hmac reader (versions [4%Z])
     = Done (None, Some (OtherError "no such version")).
Proof.
  split; [reflexivity |]. split.
  - apply (loaders_reader_error (Lib := lib) (Pkg := pkg) load_aes reader
             (versions [1; 4]%Z) [{| VersionNumber := 1%Z |}] []
             {| VersionNumber := 4%Z |} ""%string (OtherError "no such version")
             eq_refl);
      [| reflexivity].
    constructor; [| constructor].
    exists (fst (reader 1%Z)). repeat split; reflexivity.
  - apply (loaders_reader_error (Lib := lib) (Pkg := pkg) load_hmac reader
             (versions [4%Z]) [] [] {| VersionNumber := 4%Z |} ""%string
             (OtherError "no such version") eq_refl);
      [constructor | reflexivity].
Defined.

Lemma loaders_keys_well_formed_witness :
  exists m,
    run_loader load_dsa dsa_reader (versions [1%Z]) = Done (Some m, None)
    /\ m !! 1%Z = Some (key_dsa dsa_key)
    /\ loaded_key_ok load_dsa (key_dsa dsa_key).
Proof.
  eexists. split; [reflexivity |].
  assert (forall m, run_loader load_dsa dsa_reader (versions [1%Z]) = Done (Some m, None) ->
                    m !! 1%Z = Some (key_dsa dsa_key)) as Hlook.
  { intros m [= <-]. vm_compute. reflexivity. }
  split; [apply Hlook; reflexivity |].
  eapply (loaders_keys_well_formed (Lib := lib) (Pkg := pkg) load_dsa dsa_reader
            (versions [1%Z]) _ 1%Z); [reflexivity | apply Hlook; reflexivity].
Defined.

Lemma rsaKey_Decrypt_Encrypt_witness :
  rsa_key_valid (rsaKey_key rsa_key) = true
  /\ exists c,
       rsaKey_Encrypt rsa_key [] hello = (Some c, None)
       /\ outcome (rsaKey_Decrypt rsa_key c) = Done (Some hello, None).
Proof.
  assert (rsa_key_valid (rsaKey_key rsa_key) = true) as Hvalid
    by (vm_compute; reflexivity).
  split; [exact Hvalid |].
  destruct (rsaKey_Decrypt_Encrypt (Lib := lib) (Pkg := pkg) (Asym := asym)
              sample_header_length sample_OAEP_inverse rsa_key [] hello Hvalid eq_refl)
    as [Hok _].
  eexists. exact (Hok _ eq_refl).
Defined.

Lemma rsaKey_Decrypt_ignores_header_witness :
  rsaKey_Decrypt rsa_key (make_bytes 5 ++ hello)
  = rsaKey_Decrypt rsa_key (list_byte_of_string "12345" ++ hello).
Proof.
  exact (rsaKey_Decrypt_ignores_header (Lib := lib) (Pkg := pkg) rsa_key
           (make_bytes 5) (list_byte_of_string "12345") hello eq_refl eq_refl).
Defined.

Lemma rsaKey_Verify_Sign_witness :
  rsa_key_valid (rsaKey_key rsa_key) = true
  /\ exists s,
       rsaKey_Sign rsa_key [] hello = (Some s, None)
       /\ rsaKey_Verify rsa_key hello s = (true, None).
Proof.
  assert (rsa_key_valid (rsaKey_key rsa_key) = true) as Hvalid
    by (vm_compute; reflexivity).
  split; [exact Hvalid |].
  destruct (rsaKey_Verify_Sign (Lib := lib) (Asym := asym) sample_PKCS1v15_verifies
              rsa_key [] hello Hvalid eq_refl) as [Hok _].
  eexists. split; [reflexivity |]. apply Hok. reflexivity.
Defined.

Lemma dsaKey_Verify_Sign_witness :
  dsa_key_valid (dsaKey_key dsa_key) = true
  /\ exists b,
       dsaKey_Sign dsa_key [] hello = (Some b, None)
       /\ dsaKey_Verify dsa_key hello b = (true, None).
Proof.
  assert (dsa_key_valid (dsaKey_key dsa_key) = true) as Hvalid
    by (vm_compute; reflexivity).
  split; [exact Hvalid |].
  eexists. split; [reflexivity |].
  apply (dsaKey_Verify_Sign (Lib := lib) (Asym := asym)
           sample_DSA_verifies sample_asn1_rest dsa_key [] hello _ Hvalid eq_refl).
  reflexivity.
Defined.

Lemma dsaKey_Verify_trailing_bytes_witness :
  asn1_Marshal {| sig_R := 7; sig_S := 1 |} = (Some [Byte.x07; Byte.x01], None)
  /\ dsaKey_Verify dsa_key hello ([Byte.x07; Byte.x01] ++ hello)
     = dsaKey_Verify dsa_key hello [Byte.x07; Byte.x01].
Proof.
  assert (asn1_Marshal {| sig_R := 7; sig_S := 1 |} = (Some [Byte.x07; Byte.x01], None))
    as Hm by reflexivity.
  split; [exact Hm |].
  exact (proj2 (dsaKey_Verify_trailing_bytes (Lib := lib) (Asym := asym)
                  sample_asn1_rest {| sig_R := 7; sig_S := 1 |}
                  [Byte.x07; Byte.x01] hello hello Hm) dsa_key).
Defined.

Lemma newAesFromPackedKeys_packedKeys_witness :
  newAesFromPackedKeys (aesKey_packedKeys key) = mret (Some key, None).
Proof.
  rewrite (newAesFromPackedKeys_packedKeys (Pkg := pkg) (Cod := codec)
             sample_unpack_pack key); [reflexivity | | ]; vm_compute; reflexivity.
Defined.

Lemma loaders_null_record_panics_witness :
  record_is_null load_aes (fst (reader 5%Z)) = true
  /\ run_loader load_aes reader (versions [1; 5; 2]%Z) = Panic.
Proof.
  assert (record_is_null load_aes (fst (reader 5%Z)) = true) as Hn by reflexivity.
  split; [exact Hn |].
  apply (loaders_null_record_panics (Lib := lib) (Pkg := pkg) load_aes reader
           (versions [1; 5; 2]%Z) [{| VersionNumber := 1%Z |}]
           [{| VersionNumber := 2%Z |}] {| VersionNumber := 5%Z |}
           (fst (reader 5%Z)) eq_refl);
    [| reflexivity | exact Hn].
  constructor; [| constructor].
  exists (fst (reader 1%Z)). repeat split; reflexivity.
Defined.
